(** * AverageInitialization (mlpack, methods/amf/init_rules/average_init.hpp)

    A shallow embedding of the initialization rule for alternating matrix
    factorization, and the properties of its two entry points [Initialize]
    and [InitializeOne].

    C++ [double] is IEEE 754 binary64 and is modelled by Rocq's primitive
    [float] (the same format, round to nearest even), so that every
    definition below evaluates on concrete matrices.  [size_t] is a 64-bit
    unsigned integer, modelled by [Z] with its wrap-around written out. *)

From Stdlib Require Import Ascii String.
From Stdlib Require Import ZArith List Bool Lia.
From Stdlib Require Import Floats.
Import ListNotations.

Local Open Scope Z_scope.

(* ------------------------------------------------------------------ *)
(** ** Machine numbers *)

Definition double := float.

(** [size_t] on the 64-bit targets mlpack builds for. *)
Definition size_t := Z.
Definition SIZE_MAX : Z := 2 ^ 64 - 1.
Definition size_wrap (z : Z) : size_t := z mod 2 ^ 64.
Definition size_mul (a b : size_t) : size_t := size_wrap (a * b).
Definition size_incr (a : size_t) : size_t := size_wrap (a + 1).

(** [DBL_MAX] of <cfloat>: the largest finite binary64 value,
    (2 - 2^-52) * 2^1023. *)
Definition DBL_MAX : double := 0x1.fffffffffffffp+1023%float.

(** The implicit conversion of a [size_t] operand to [double] in
    [avgV / (n * m)] and [... / r]: the integer rounded to the nearest
    binary64 value, ties to even. *)
Definition of_size (z : size_t) : double :=
  SF2Prim (binary_normalize prec emax z 0 false).

(* ------------------------------------------------------------------ *)
(** ** Matrices *)

(** [arma::mat]: a dense matrix of doubles in column-major storage. *)
Record mat : Type := Mat {
  mat_n_rows : size_t;
  mat_n_cols : size_t;
  mat_mem : list double
}.

(** [arma::sp_mat]: compressed sparse column storage; only the stored
    (nonzero) entries are kept, column after column. *)
Record sp_mat : Type := SpMat {
  sp_n_rows : size_t;
  sp_n_cols : size_t;
  sp_values : list double;
  sp_row_indices : list size_t;
  sp_col_ptrs : list size_t
}.

(** What the template parameter [MatType] must provide: the two dimensions
    and the traversal [V.begin() .. V.end()] with [const_row_col_iterator],
    here the list of the values [*it] in the order they are visited. *)
Class MatType (M : Type) : Type := {
  n_rows : M -> size_t;
  n_cols : M -> size_t;
  elements : M -> list double
}.

#[export] Instance MatType_mat : MatType mat :=
  {| n_rows := mat_n_rows; n_cols := mat_n_cols; elements := mat_mem |}.

#[export] Instance MatType_sp_mat : MatType sp_mat :=
  {| n_rows := sp_n_rows; n_cols := sp_n_cols; elements := sp_values |}.

(** The containers' own invariants.  A dense matrix stores every one of its
    [n_rows * n_cols] entries; a sparse one stores at most that many; in both
    the number of entries [n_elem] is itself a 64-bit unsigned integer. *)
Definition dims_ok {M} {MTI : MatType M} (V : M) : Prop :=
  0 <= n_rows V /\ 0 <= n_cols V /\ n_rows V * n_cols V <= SIZE_MAX.

Definition mat_ok (V : mat) : Prop :=
  dims_ok V /\ Z.of_nat (length (mat_mem V)) = mat_n_rows V * mat_n_cols V.

Definition sp_mat_ok (V : sp_mat) : Prop :=
  dims_ok V /\
  Z.of_nat (length (sp_values V)) <= sp_n_rows V * sp_n_cols V /\
  length (sp_row_indices V) = length (sp_values V) /\
  Z.of_nat (length (sp_col_ptrs V)) = sp_n_cols V + 1 /\
  Forall (fun x => (x =? 0)%float = false) (sp_values V).

(** [M + k]: the scalar is added to every entry. *)
Definition mat_plus (M : mat) (k : double) : mat :=
  {| mat_n_rows := mat_n_rows M;
     mat_n_cols := mat_n_cols M;
     mat_mem := map (fun x => (x + k)%float) (mat_mem M) |}.

(* ------------------------------------------------------------------ *)
(** ** The random source *)

(** Modelled from the spec: Armadillo's generator behind [randu] is not part
    of the file; the spec describes it as an external source of independent
    uniform samples in [0,1), already seeded.  It is a state [G] and a
    function that takes one sample and moves the state on. *)
Class UniformSource (G : Type) : Type := {
  next_uniform : G -> double * G
}.

(** Every sample the source can give lies in [0,1). *)
Definition unit_interval (u : double) : Prop :=
  (0 <=? u)%float = true /\ (u <? 1)%float = true.

Definition source_in_unit_interval (G : Type) {USI : UniformSource G} : Prop :=
  forall g : G, unit_interval (fst (next_uniform g)).

Fixpoint draw {G} {USI : UniformSource G} (k : nat) (g : G) : list double * G :=
  match k with
  | O => ([], g)
  | S k' =>
      let (u, g1) := next_uniform g in
      let (us, g2) := draw k' g1 in
      (u :: us, g2)
  end.

(** Modelled from the spec: [M.randu(rows, cols)] of Armadillo resizes [M]
    to [rows] x [cols] and fills every entry with a fresh sample, in storage
    order; nothing of the previous contents of [M] is kept.  The memory the
    matrix takes is not bounded here. *)
Definition randu {G} {USI : UniformSource G}
  (M : mat) (rows cols : size_t) (g : G) : mat * G :=
  let (us, g') := draw (Z.to_nat (rows * cols)) g in
  ({| mat_n_rows := rows; mat_n_cols := cols; mat_mem := us |}, g').

(* ------------------------------------------------------------------ *)
(** ** Outcomes *)

(** How a call ends.  Modelled from the spec: [Log::Fatal] of mlpack is not
    part of the file; the spec describes it as fatal-log-and-abort.  [Fatal]
    carries the message streamed to it and the state of the output
    parameters at that point. *)
Inductive outcome (A : Type) : Type :=
| Normal (a : A)
| Fatal (msg : string) (a : A).
Arguments Normal {A} a.
Arguments Fatal {A} msg a.

Definition is_fatal {A} (o : outcome A) : bool :=
  match o with Normal _ => false | Fatal _ _ => true end.

Definition state_of {A} (o : outcome A) : A :=
  match o with Normal a => a | Fatal _ a => a end.

(* ------------------------------------------------------------------ *)
(** ** AverageInitialization *)

(** The class has no data member: its constructor and [serialize] do
    nothing, and both initializers are static. *)
Record AverageInitialization : Type := Build_AverageInitialization { }.

(** The locals [avgV], [count] and [min] of the statistics loop. *)
Record stats : Type := Stats {
  avgV : double;
  count : size_t;
  min : double
}.

Section Initializer.

Context {MT : Type} {MTI : MatType MT}.
Context {G : Type} {USI : UniformSource G}.

(** [Initialize(V, r, W, H)], lines 43-75. *)
Definition Initialize (V : MT) (r : size_t) (W H : mat) (g : G)
  : outcome (mat * mat * G) :=
  let n := n_rows V in
  let m := n_cols V in
  let st :=
    fold_left
      (fun (st : stats) (it : double) =>
         let count := size_incr (count st) in
         let avgV := (avgV st + it)%float in
         let min := if (it <? min st)%float then it else min st in
         Stats avgV count min)
      (elements V)
      (Stats 0%float 0 DBL_MAX) in
  let avgV :=
    sqrt (((avgV st / of_size (size_mul n m)) - min st) / of_size r)%float in
  let (W, g) := randu W n r g in
  let (H, g) := randu H r m g in
  let W := mat_plus W avgV in
  let H := mat_plus H avgV in
  Normal (W, H, g).

(** [InitializeOne(V, r, whichMatrix, M)], lines 88-151. *)
Definition InitializeOne (V : MT) (r : size_t) (whichMatrix : ascii)
  (M : mat) (g : G) : outcome (mat * G) :=
  let n := n_rows V in
  let m := n_cols V in
  if (Ascii.eqb whichMatrix "W" || Ascii.eqb whichMatrix "w")%bool then
    let st :=
      fold_left
        (fun (st : stats) (it : double) =>
           let count := size_incr (count st) in
           let avgV := (avgV st + it)%float in
           let min := if (it <? min st)%float then it else min st in
           Stats avgV count min)
        (elements V)
        (Stats 0%float 0 DBL_MAX) in
    let avgV :=
      sqrt (((avgV st / of_size (size_mul n m)) - min st) / of_size r)%float in
    let (M, g) := randu M n r g in
    let M := mat_plus M avgV in
    Normal (M, g)
  else if (Ascii.eqb whichMatrix "H" || Ascii.eqb whichMatrix "h")%bool then
    let st :=
      fold_left
        (fun (st : stats) (it : double) =>
           let count := size_incr (count st) in
           let avgV := (avgV st + it)%float in
           let min := if (it <? min st)%float then it else min st in
           Stats avgV count min)
        (elements V)
        (Stats 0%float 0 DBL_MAX) in
    let avgV :=
      sqrt (((avgV st / of_size (size_mul n m)) - min st) / of_size r)%float in
    let (M, g) := randu M r m g in
    let M := mat_plus M avgV in
    Normal (M, g)
  else
    Fatal "Specify either 'H' or 'W' when initializing one of W and H matrices!"
          (M, g).

End Initializer.


(* ------------------------------------------------------------------ *)
(** ** The call site *)

(** The variables of the caller that a call can reach, three matrices apart
    from one another: [V] is bound by reference to const, [W] and [H] by
    reference, and the generator is the one [randu] draws from. *)
Record caller_state (MT G : Type) : Type := CallerState {
  cs_V : MT;
  cs_W : mat;
  cs_H : mat;
  cs_gen : G
}.
Arguments CallerState {MT G} _ _ _ _.
Arguments cs_V {MT G} _.
Arguments cs_W {MT G} _.
Arguments cs_H {MT G} _.
Arguments cs_gen {MT G} _.

(** [AverageInitialization::Initialize(V, r, W, H)] run on the caller's
    variables. *)
Definition call_Initialize {MT G} {MTI : MatType MT} {USI : UniformSource G}
  (r : size_t) (s : caller_state MT G) : outcome (caller_state MT G) :=
  match Initialize (cs_V s) r (cs_W s) (cs_H s) (cs_gen s) with
  | Normal (W, H, g) => Normal (CallerState (cs_V s) W H g)
  | Fatal msg (W, H, g) => Fatal msg (CallerState (cs_V s) W H g)
  end.

(** [AverageInitialization::InitializeOne(V, r, 'W', W)] and
    [InitializeOne(V, r, 'H', H)] run on the caller's variables; any other
    character is passed with [W] as the matrix to initialize. *)
Definition call_InitializeOne {MT G} {MTI : MatType MT} {USI : UniformSource G}
  (r : size_t) (whichMatrix : ascii) (s : caller_state MT G)
  : outcome (caller_state MT G) :=
  if (Ascii.eqb whichMatrix "H" || Ascii.eqb whichMatrix "h")%bool then
    match InitializeOne (cs_V s) r whichMatrix (cs_H s) (cs_gen s) with
    | Normal (M, g) => Normal (CallerState (cs_V s) (cs_W s) M g)
    | Fatal msg (M, g) => Fatal msg (CallerState (cs_V s) (cs_W s) M g)
    end
  else
    match InitializeOne (cs_V s) r whichMatrix (cs_W s) (cs_gen s) with
    | Normal (M, g) => Normal (CallerState (cs_V s) M (cs_H s) g)
    | Fatal msg (M, g) => Fatal msg (CallerState (cs_V s) M (cs_H s) g)
    end.

(* ------------------------------------------------------------------ *)
(** ** The statistics as the specification words them *)

(** The body of the [for] loop of lines 57-65 (and of its two copies in
    [InitializeOne]) as a function on the locals. *)
Definition loop_body (st : stats) (it : double) : stats :=
  Stats (avgV st + it)%float (size_incr (count st))
        (if (it <? min st)%float then it else min st).

(** The running total of the stored elements. *)
Definition sum_of (xs : list double) : double :=
  fold_left (fun acc x => (acc + x)%float) xs 0%float.

(** The minimum of the stored elements, starting from the largest
    representable value. *)
Definition min_of (xs : list double) : double :=
  fold_left (fun mn x => if (x <? mn)%float then x else mn) xs DBL_MAX.

(** [mean = sum / (n * m)], the full matrix size as denominator. *)
Definition mean_of {M} {MTI : MatType M} (V : M) : double :=
  (sum_of (elements V) / of_size (n_rows V * n_cols V)%Z)%float.

(** The quantity under the square root, [(mean - min) / r]. *)
Definition radicand_of {M} {MTI : MatType M} (V : M) (r : size_t) : double :=
  ((mean_of V - min_of (elements V)) / of_size r)%float.

(** [seed = sqrt((mean - min) / r)]. *)
Definition seed_of {M} {MTI : MatType M} (V : M) (r : size_t) : double :=
  sqrt (radicand_of V r).

(** The value of the local [avgV] after line 67, with the product [n * m]
    taken in [size_t] as the code takes it, and the quantity under its
    square root. *)
Definition computed_radicand {M} {MTI : MatType M} (V : M) (r : size_t)
  : double :=
  (((sum_of (elements V) / of_size (size_mul (n_rows V) (n_cols V)))
    - min_of (elements V)) / of_size r)%float.

Definition computed_seed {M} {MTI : MatType M} (V : M) (r : size_t)
  : double :=
  sqrt (computed_radicand V r).

(** [max(0, x)] as [std::max] computes it. *)
Definition fmax0 (x : double) : double :=
  if (0 <? x)%float then x else 0%float.

(** The seed of the specification's clamping policy,
    [sqrt(max(0, (mean - min) / r))]. *)
Definition clamped_seed_of {M} {MTI : MatType M} (V : M) (r : size_t)
  : double :=
  sqrt (fmax0 (radicand_of V r)).

(** A container holds at most [n_rows * n_cols] elements, all of them for a
    dense matrix. *)
Definition stored_ok {M} {MTI : MatType M} (V : M) : Prop :=
  dims_ok V /\ Z.of_nat (length (elements V)) <= n_rows V * n_cols V.

(** [x] lies in the half-open interval [[s, s+1)]. *)
Definition in_seed_range (s x : double) : bool :=
  ((s <=? x)%float && (x <? s + 1)%float)%bool.

(** [x] lies in the closed interval [[s, s+1]]. *)
Definition in_closed_seed_range (s x : double) : bool :=
  ((s <=? x)%float && (x <=? s + 1)%float)%bool.

Definition has_shape (M : mat) (rows cols : size_t) : Prop :=
  mat_n_rows M = rows /\ mat_n_cols M = cols /\
  Z.of_nat (length (mat_mem M)) = rows * cols.

(** The matrix of fresh samples [randu] leaves behind, and the generator
    after it. *)
Definition noise {G} {USI : UniformSource G} (rows cols : size_t) (g : G)
  : mat :=
  fst (randu (Mat 0 0 []) rows cols g).

Definition after_noise {G} {USI : UniformSource G} (rows cols : size_t)
  (g : G) : G :=
  snd (randu (Mat 0 0 []) rows cols g).

(* ------------------------------------------------------------------ *)
(** ** A mocked random source and example matrices *)

(** A source that cycles through four samples, among them the two ends of
    what [0,1) holds in binary64: 0 and 1 - 2^-53. *)
Inductive phase : Type := P0 | P1 | P2 | P3.

#[export] Instance Cycle4 : UniformSource phase :=
  {| next_uniform p :=
       match p with
       | P0 => (0.5%float, P1)
       | P1 => (0x1.fffffffffffffp-1%float, P2)
       | P2 => (0%float, P3)
       | P3 => (0.25%float, P0)
       end |}.

(** The dense 2 x 2 matrix [[0,2],[4,6]] of the specification's scenario, in
    column-major storage. *)
Definition V_dense : mat := Mat 2 2 [0; 4; 2; 6]%float.

(** The dense 1 x 2 matrix [[0,2]]. *)
Definition V_row : mat := Mat 1 2 [0; 2]%float.

(** The sparse 3 x 3 matrix whose only stored entry is a 5 at row 1,
    column 1. *)
Definition V_sparse : sp_mat := SpMat 3 3 [5]%float [1] [0; 0; 1; 1].

(** A sparse 3 x 3 matrix with no stored entry. *)
Definition V_sparse_empty : sp_mat := SpMat 3 3 [] [] [0; 0; 0; 0].

(** A dense matrix with no row. *)
Definition V_no_rows : mat := Mat 0 2 [].

Definition M_empty : mat := Mat 0 0 [].
Definition M_stale : mat := Mat 1 2 [7; 9]%float.


(* ------------------------------------------------------------------ *)
(** ** The specification's policies, as it words them *)

(** Section 8: every entry of the returned W and H lies in
    [[seed, seed+1)] for [seed = sqrt(max(0, (mean - min)/r))]. *)
Definition spec_range_policy {MT G} {MTI : MatType MT} {USI : UniformSource G}
  (V : MT) (r : size_t) (W H : mat) (g : G) : Prop :=
  match Initialize V r W H g with
  | Normal (W', H', _) =>
      has_shape W' (n_rows V) r /\ has_shape H' r (n_cols V) /\
      forallb (in_seed_range (clamped_seed_of V r)) (mat_mem W') = true /\
      forallb (in_seed_range (clamped_seed_of V r)) (mat_mem H') = true
  | Fatal _ _ => False
  end.

(** Section 7: a negative [(mean - min)/r] is clamped to zero, so that the
    seed is 0 and the outputs are the plain samples. *)
Definition spec_clamp_policy {MT G} {MTI : MatType MT} {USI : UniformSource G}
  (V : MT) (r : size_t) (W H : mat) (g : G) : Prop :=
  (computed_radicand V r <? 0)%float = true ->
  match Initialize V r W H g with
  | Normal (W', H', _) =>
      W' = mat_plus (noise (n_rows V) r g) 0%float /\
      H' = mat_plus (noise r (n_cols V) (after_noise (n_rows V) r g)) 0%float
  | Fatal _ _ => False
  end.

(** Section 7: a zero dimension of V or a zero rank is rejected before
    anything is computed, so that no matrix comes back. *)
Definition spec_rejects_empty_input {MT G} {MTI : MatType MT}
  {USI : UniformSource G} (V : MT) (r : size_t) (W H : mat) (g : G) : Prop :=
  n_rows V = 0 \/ n_cols V = 0 \/ r = 0 ->
  match Initialize V r W H g with
  | Normal _ => False
  | Fatal _ _ => True
  end.

(** Section 7: a wrong selector is a recoverable error, not the end of the
    process. *)
Definition spec_recoverable_selector {MT G} {MTI : MatType MT}
  {USI : UniformSource G} (V : MT) (r : size_t) (c : ascii) (M : mat) (g : G)
  : Prop :=
  c <> "W"%char -> c <> "w"%char -> c <> "H"%char -> c <> "h"%char ->
  is_fatal (InitializeOne V r c M g) = false.

(* ------------------------------------------------------------------ *)
(** ** Doubles that are not negative, as whole numbers *)

(** Every finite double is a whole number of units of 2^-1074.  [units]
    gives that number for a double that is not negative; the infinity is
    given the first power of two above every finite double. *)
Definition INF_units : Z := 2 ^ 2098.

Definition units (x : spec_float) : Z :=
  match x with
  | S754_zero _ => 0
  | S754_finite _ m e => Zpos m * 2 ^ (e + 1074)
  | S754_infinity _ => INF_units
  | S754_nan => 0
  end.

Definition nonneg_sf (x : spec_float) : bool :=
  match x with
  | S754_zero _ => true
  | S754_finite s _ _ => negb s
  | S754_infinity s => negb s
  | S754_nan => false
  end.

(** Whether round-to-nearest-even moves the quotient [q] up, given the
    remainder [rem] of the division by [2^k]. *)
Definition round_up_bit (k q rem : Z) : bool :=
  ((2 ^ k <? 2 * rem) || ((2 ^ k =? 2 * rem) && Z.odd q))%bool.

(** The number of low bits that do not fit in 53 significant bits. *)
Definition round_k (N : Z) : Z := Z.max (Zdigits2 N - 53) 0.

(** Round-to-nearest-even of a whole number of units to 53 significant
    bits, before the overflow test: the rounded quotient, and the number it
    stands for. *)
Definition round_q (N : Z) : Z :=
  let k := round_k N in
  let q := N / 2 ^ k in
  let rem := N mod 2 ^ k in
  if round_up_bit k q rem then q + 1 else q.

Definition round_raw (N : Z) : Z := round_q N * 2 ^ round_k N.

(** The same with overflow to the infinity. *)
Definition round_units (N : Z) : Z := Z.min (round_raw N) INF_units.

(* ------------------------------------------------------------------ *)
(** ** Doubles of either sign, as whole numbers *)

(** [units] with the sign: the whole number of units of 2^-1074 that a
    double stands for, both zeros being 0 and the infinities lying beyond
    every finite double. *)
Definition signed_units (x : spec_float) : Z :=
  match x with
  | S754_zero _ => 0
  | S754_finite s m e =>
      if s then - (Zpos m * 2 ^ (e + 1074)) else Zpos m * 2 ^ (e + 1074)
  | S754_infinity s => if s then - INF_units else INF_units
  | S754_nan => 0
  end.

(* ------------------------------------------------------------------ *)
(** ** More example matrices *)

(** A dense 1 x 2 matrix with a NaN entry. *)
Definition V_nan : mat := Mat 1 2 [1%float; nan].

(** A dense 1 x 2 matrix whose sum overflows. *)
Definition V_huge : mat := Mat 1 2 [DBL_MAX; DBL_MAX].

(** A dense 1 x 3 matrix with the same entry everywhere, the double
    nearest to 0.7. *)
Definition V_constant : mat :=
  Mat 1 3 [0x1.6666666666666p-1; 0x1.6666666666666p-1;
           0x1.6666666666666p-1]%float.
(* ------------------------------------------------------------------ *)
(** * Properties *)

(** ** The statistics loop *)

Lemma loop_avgV (xs : list double) (st : stats) :
  avgV (fold_left loop_body xs st)
  = fold_left (fun acc x => (acc + x)%float) xs (avgV st).
Proof.
  revert st; induction xs as [|x xs IH]; intros st; simpl; [reflexivity|].
  now rewrite IH.
Qed.

Lemma loop_min (xs : list double) (st : stats) :
  min (fold_left loop_body xs st)
  = fold_left (fun mn x => if (x <? mn)%float then x else mn) xs (min st).
Proof.
  revert st; induction xs as [|x xs IH]; intros st; simpl; [reflexivity|].
  now rewrite IH.
Qed.

(** [count] is the number of elements visited, modulo 2^64; nothing reads
    it. *)
Lemma loop_count (xs : list double) (st : stats) :
  0 <= count st < 2 ^ 64 ->
  count (fold_left loop_body xs st)
  = size_wrap (count st + Z.of_nat (length xs)).
Proof.
  revert st; induction xs as [|x xs IH]; intros st Hc.
  - simpl. unfold size_wrap. rewrite Z.add_0_r, Z.mod_small; lia.
  - cbn [fold_left length]. rewrite IH.
    + cbn [loop_body count]. unfold size_incr, size_wrap.
      rewrite Zplus_mod_idemp_l. f_equal. lia.
    + cbn [loop_body count]. unfold size_incr, size_wrap.
      apply Z.mod_pos_bound. lia.
Qed.

Lemma loop_stats (xs : list double) :
  fold_left
    (fun (st : stats) (it : double) =>
       let count := size_incr (count st) in
       let avgV := (avgV st + it)%float in
       let min := if (it <? min st)%float then it else min st in
       Stats avgV count min)
    xs (Stats 0%float 0 DBL_MAX)
  = Stats (sum_of xs) (size_wrap (Z.of_nat (length xs))) (min_of xs).
Proof.
  change (fold_left loop_body xs (Stats 0%float 0 DBL_MAX)
          = Stats (sum_of xs) (size_wrap (Z.of_nat (length xs))) (min_of xs)).
  generalize (loop_avgV xs (Stats 0%float 0 DBL_MAX)).
  generalize (loop_min xs (Stats 0%float 0 DBL_MAX)).
  generalize (loop_count xs (Stats 0%float 0 DBL_MAX)).
  destruct (fold_left loop_body xs (Stats 0%float 0 DBL_MAX)) as [a c mn].
  cbn [avgV min count]. intros Hc Hm Ha.
  rewrite Hc, Hm, Ha by (simpl; lia). reflexivity.
Qed.

(** ** [randu] and the shapes *)

Lemma size_mul_small (a b : Z) :
  0 <= a * b <= SIZE_MAX -> size_mul a b = a * b.
Proof.
  unfold size_mul, size_wrap, SIZE_MAX. intros Hab.
  apply Z.mod_small. lia.
Qed.

Lemma size_mul_dims {M} {MTI : MatType M} (V : M) :
  dims_ok V -> size_mul (n_rows V) (n_cols V) = n_rows V * n_cols V.
Proof.
  intros (Hn & Hm & Hnm). apply size_mul_small. split; [nia | assumption].
Qed.

Section Draws.

Context {G : Type} {USI : UniformSource G}.

Lemma draw_length (k : nat) (g : G) : length (fst (draw k g)) = k.
Proof.
  revert g; induction k as [|k IH]; intros g; simpl; [reflexivity|].
  destruct (next_uniform g) as [u g1].
  specialize (IH g1). destruct (draw k g1) as [us g2].
  simpl in *. now rewrite IH.
Qed.

Lemma draw_unit_interval (k : nat) (g : G) :
  source_in_unit_interval G -> Forall unit_interval (fst (draw k g)).
Proof.
  intros Hsrc. revert g; induction k as [|k IH]; intros g; simpl.
  - constructor.
  - specialize (Hsrc g). destruct (next_uniform g) as [u g1].
    specialize (IH g1). destruct (draw k g1) as [us g2].
    simpl in *. now constructor.
Qed.

(** [randu] keeps nothing of the matrix it is called on. *)
Lemma randu_fresh (M M' : mat) (rows cols : size_t) (g : G) :
  randu M rows cols g = randu M' rows cols g.
Proof. reflexivity. Qed.

Lemma randu_noise (M : mat) (rows cols : size_t) (g : G) :
  randu M rows cols g = (noise rows cols g, after_noise rows cols g).
Proof.
  unfold noise, after_noise. rewrite (randu_fresh M (Mat 0 0 [])).
  now destruct (randu (Mat 0 0 []) rows cols g).
Qed.

Lemma noise_shape (rows cols : size_t) (g : G) :
  0 <= rows -> 0 <= cols -> has_shape (noise rows cols g) rows cols.
Proof.
  intros Hr Hc. unfold noise, randu.
  pose proof (draw_length (Z.to_nat (rows * cols)) g) as Hl.
  destruct (draw (Z.to_nat (rows * cols)) g) as [us g'].
  cbn [fst] in *. unfold has_shape; cbn [mat_n_rows mat_n_cols mat_mem].
  repeat split. rewrite Hl. apply Z2Nat.id. nia.
Qed.

Lemma noise_unit_interval (rows cols : size_t) (g : G) :
  source_in_unit_interval G ->
  Forall unit_interval (mat_mem (noise rows cols g)).
Proof.
  intros Hsrc. unfold noise, randu.
  pose proof (draw_unit_interval (Z.to_nat (rows * cols)) g Hsrc) as Hl.
  now destruct (draw (Z.to_nat (rows * cols)) g) as [us g'].
Qed.

Lemma noise_dims (rows cols : size_t) (g : G) (k : double) :
  mat_n_rows (mat_plus (noise rows cols g) k) = rows /\
  mat_n_cols (mat_plus (noise rows cols g) k) = cols /\
  length (mat_mem (mat_plus (noise rows cols g) k)) = Z.to_nat (rows * cols).
Proof.
  unfold mat_plus, noise, randu.
  pose proof (draw_length (Z.to_nat (rows * cols)) g) as Hl.
  destruct (draw (Z.to_nat (rows * cols)) g) as [us g'].
  cbn [fst mat_n_rows mat_n_cols mat_mem] in *.
  now rewrite length_map.
Qed.

Lemma mat_plus_shape (M : mat) (k : double) (rows cols : size_t) :
  has_shape M rows cols -> has_shape (mat_plus M k) rows cols.
Proof.
  intros (Hr & Hc & Hl). unfold has_shape, mat_plus; simpl.
  now rewrite length_map.
Qed.

End Draws.

(** ** What the two entry points compute *)

Section Unfolding.

Context {MT : Type} {MTI : MatType MT}.
Context {G : Type} {USI : UniformSource G}.

Lemma computed_seed_dims (V : MT) (r : size_t) :
  dims_ok V -> computed_seed V r = seed_of V r.
Proof.
  intros Hd.
  unfold computed_seed, computed_radicand, seed_of, radicand_of, mean_of.
  now rewrite size_mul_dims.
Qed.

Lemma Initialize_eq (V : MT) (r : size_t) (W H : mat) (g : G) :
  Initialize V r W H g
  = Normal (mat_plus (noise (n_rows V) r g) (computed_seed V r),
            mat_plus (noise r (n_cols V) (after_noise (n_rows V) r g))
                     (computed_seed V r),
            after_noise r (n_cols V) (after_noise (n_rows V) r g)).
Proof.
  unfold Initialize. rewrite loop_stats. cbn [avgV min].
  rewrite (randu_noise W). rewrite (randu_noise H). reflexivity.
Qed.

Lemma InitializeOne_W_eq (V : MT) (r : size_t) (c : ascii) (M : mat) (g : G) :
  c = "W"%char \/ c = "w"%char ->
  InitializeOne V r c M g
  = Normal (mat_plus (noise (n_rows V) r g) (computed_seed V r),
            after_noise (n_rows V) r g).
Proof.
  intros [-> | ->]; unfold InitializeOne; cbn [Ascii.eqb Bool.eqb orb];
    rewrite loop_stats; cbn [avgV min]; rewrite (randu_noise M);
    reflexivity.
Qed.

Lemma InitializeOne_H_eq (V : MT) (r : size_t) (c : ascii) (M : mat) (g : G) :
  c = "H"%char \/ c = "h"%char ->
  InitializeOne V r c M g
  = Normal (mat_plus (noise r (n_cols V) g) (computed_seed V r),
            after_noise r (n_cols V) g).
Proof.
  intros [-> | ->]; unfold InitializeOne; cbn [Ascii.eqb Bool.eqb orb];
    rewrite loop_stats; cbn [avgV min]; rewrite (randu_noise M);
    reflexivity.
Qed.

End Unfolding.

(** ** Binary64 facts *)

Lemma Prim2SF_nan : Prim2SF nan = S754_nan.
Proof. reflexivity. Qed.

Lemma Prim2SF_zero : Prim2SF 0%float = S754_zero false.
Proof. reflexivity. Qed.

Lemma Prim2SF_DBL_MAX :
  Prim2SF DBL_MAX = S754_finite false 9007199254740991 971.
Proof. reflexivity. Qed.

Lemma SFcompare_refl (x : spec_float) :
  x <> S754_nan -> SFcompare x x = Some Eq.
Proof.
  destruct x as [s|s| |s m e]; intros Hx; try easy; try (now destruct s).
  simpl. rewrite Z.compare_refl.
  assert (Pos.compare_cont Eq m m = Eq) as -> by apply Pos.compare_cont_refl.
  now destruct s.
Qed.

Lemma is_nan_Prim2SF (x : float) :
  is_nan x = true <-> Prim2SF x = S754_nan.
Proof.
  unfold is_nan. rewrite eqb_spec. unfold SFeqb. split.
  - intros Hx. destruct (Prim2SF x) as [s|s| |s m e] eqn:E; try reflexivity;
      rewrite SFcompare_refl in Hx by discriminate; discriminate.
  - now intros ->.
Qed.

Lemma is_nan_eq (x : float) : is_nan x = true <-> x = nan.
Proof.
  rewrite is_nan_Prim2SF. split.
  - intros Hx. apply Prim2SF_inj. now rewrite Hx.
  - now intros ->.
Qed.

Lemma add_nan_r (x : float) : (x + nan)%float = nan.
Proof.
  apply Prim2SF_inj. rewrite add_spec, Prim2SF_nan.
  now destruct (Prim2SF x).
Qed.

Lemma sub_nan_l (y : float) : (nan - y)%float = nan.
Proof.
  apply Prim2SF_inj. now rewrite sub_spec, Prim2SF_nan.
Qed.

Lemma div_nan_l (y : float) : (nan / y)%float = nan.
Proof.
  apply Prim2SF_inj. now rewrite div_spec, Prim2SF_nan.
Qed.

(** The square root of a negative number is NaN ([-0] is not negative). *)
Lemma sqrt_negative (x : float) : (x <? 0)%float = true -> sqrt x = nan.
Proof.
  rewrite ltb_spec, Prim2SF_zero. intros Hx.
  apply Prim2SF_inj. rewrite sqrt_spec, Prim2SF_nan.
  destruct (Prim2SF x) as [s|s| |s m e]; try discriminate;
    destruct s; try discriminate; reflexivity.
Qed.


(** ** The rounding of [SpecFloat], step by step *)

Lemma digits2_pos_size (p : positive) : digits2_pos p = Pos.size p.
Proof. induction p; simpl; congruence. Qed.

Lemma digits2_pos_bounds (p : positive) :
  2 ^ (Zpos (digits2_pos p) - 1) <= Zpos p < 2 ^ Zpos (digits2_pos p).
Proof.
  rewrite digits2_pos_size. split.
  - pose proof (Pos.size_le p) as Hle.
    assert (Zpos (2 ^ Pos.size p) <= Zpos p~0) as Hz by exact Hle.
    rewrite Pos2Z.inj_pow in Hz.
    replace (Zpos (Pos.size p)) with (Zpos (Pos.size p) - 1 + 1) in Hz by lia.
    rewrite Z.pow_add_r in Hz by lia. lia.
  - pose proof (Pos.size_gt p) as Hgt.
    assert (Zpos p < Zpos (2 ^ Pos.size p)) as Hz by exact Hgt.
    now rewrite Pos2Z.inj_pow in Hz.
Qed.

Lemma digits2_pos_unique (p : positive) (k : Z) :
  2 ^ (k - 1) <= Zpos p < 2 ^ k -> Zpos (digits2_pos p) = k.
Proof.
  intros [Hlo Hhi]. pose proof (digits2_pos_bounds p) as [Dlo Dhi].
  assert (0 < k) as Hk.
  { destruct (Z.ltb_spec 0 k) as [|Hle]; [assumption|].
    exfalso. destruct (Z.eq_dec k 0) as [-> | Hne]; [simpl in Hhi; lia|].
    rewrite (Z.pow_neg_r 2 k) in Hhi by lia. lia. }
  destruct (Z.lt_trichotomy (Zpos (digits2_pos p)) k) as [Hlt | [Heq | Hgt]];
    [exfalso | assumption | exfalso].
  - assert (2 ^ Zpos (digits2_pos p) <= 2 ^ (k - 1))
      by (apply Z.pow_le_mono_r; lia). lia.
  - assert (2 ^ k <= 2 ^ (Zpos (digits2_pos p) - 1))
      by (apply Z.pow_le_mono_r; lia). lia.
Qed.

Lemma Zdigits2_pos (m : Z) : 0 < m -> 0 < Zdigits2 m.
Proof. destruct m; simpl; lia. Qed.

Lemma Zdigits2_bounds (m : Z) :
  0 < m -> 2 ^ (Zdigits2 m - 1) <= m < 2 ^ Zdigits2 m.
Proof. destruct m; try lia. intros _. apply digits2_pos_bounds. Qed.

Lemma Zdigits2_unique (m k : Z) :
  2 ^ (k - 1) <= m < 2 ^ k -> 0 < m -> Zdigits2 m = k.
Proof. destruct m; try lia. intros Hb _. now apply digits2_pos_unique. Qed.

Lemma iter_pos_nat {A} (f : A -> A) (p : positive) (x : A) :
  iter_pos f p x = Nat.iter (Pos.to_nat p) f x.
Proof.
  revert x; induction p as [p IH | p IH |]; intros x; cbn [iter_pos].
  - rewrite !IH, Pos2Nat.inj_xI.
    replace (S (2 * Pos.to_nat p))%nat
      with (Pos.to_nat p + (Pos.to_nat p + 1))%nat by lia.
    rewrite !Nat.iter_add. reflexivity.
  - rewrite !IH, Pos2Nat.inj_xO.
    replace (2 * Pos.to_nat p)%nat
      with (Pos.to_nat p + Pos.to_nat p)%nat by lia.
    rewrite Nat.iter_add. reflexivity.
  - reflexivity.
Qed.

Lemma shr_1_nonneg (m : Z) (r s : bool) :
  0 <= m ->
  shr_1 (Build_shr_record m r s)
  = Build_shr_record (m / 2) (Z.odd m) (r || s).
Proof.
  intros Hm. destruct m as [|p|p]; [reflexivity| |lia].
  destruct p as [p|p|]; cbn [shr_1 Z.odd].
  - f_equal. rewrite Pos2Z.inj_xI.
    apply (Z.div_unique _ 2 _ 1); lia.
  - f_equal. rewrite Pos2Z.inj_xO.
    apply (Z.div_unique _ 2 _ 0); lia.
  - reflexivity.
Qed.

(** After [j + 1] right shifts the record holds the quotient by 2^(j+1), the
    last bit shifted out, and whether anything nonzero was shifted out
    before it. *)
Lemma shr_iter (m : Z) (r0 s0 : bool) (j : nat) :
  0 <= m ->
  Nat.iter (S j) shr_1 (Build_shr_record m r0 s0)
  = Build_shr_record (m / 2 ^ (Z.of_nat j + 1))
      (Z.testbit m (Z.of_nat j))
      (negb (m mod 2 ^ Z.of_nat j =? 0) || (r0 || s0)).
Proof.
  intros Hm. induction j as [|j IH].
  - cbn [Nat.iter]. rewrite shr_1_nonneg by assumption.
    cbn [Z.of_nat Z.add Z.pow Z.pow_pos Pos.iter Z.mul Pos.mul].
    rewrite Z.mod_1_r, Z.bit0_odd. reflexivity.
  - change (Nat.iter (S (S j)) shr_1 (Build_shr_record m r0 s0))
      with (shr_1 (Nat.iter (S j) shr_1 (Build_shr_record m r0 s0))).
    rewrite IH. rewrite shr_1_nonneg by (apply Z.div_pos; lia).
    rewrite Nat2Z.inj_succ. unfold Z.succ.
    assert (0 < 2 ^ Z.of_nat j) as Hp by (apply Z.pow_pos_nonneg; lia).
    f_equal.
    + rewrite Z.div_div by lia.
      f_equal. rewrite (Z.pow_add_r 2 (Z.of_nat j + 1) 1) by lia. lia.
    + rewrite <- Z.bit0_odd, Z.div_pow2_bits by lia. f_equal.
    + rewrite (Z.pow_add_r 2 (Z.of_nat j) 1) by lia.
      change (2 ^ 1) with 2.
      rewrite Z.rem_mul_r by lia.
      pose proof (Z.testbit_spec' m (Z.of_nat j) ltac:(lia)) as Hbit.
      pose proof (Z.mod_pos_bound m (2 ^ Z.of_nat j) Hp) as Hb1.
      destruct (Z.testbit m (Z.of_nat j)); cbn [Z.b2z] in Hbit;
        rewrite <- Hbit; cbn [orb].
      * destruct (Z.eqb_spec (m mod 2 ^ Z.of_nat j + 2 ^ Z.of_nat j * 1) 0);
          [lia|]. reflexivity.
      * rewrite Z.mul_0_r, Z.add_0_r. reflexivity.
Qed.

Lemma fexp_eq (x : Z) : fexp prec emax x = Z.max (x - 53) (-1074).
Proof. reflexivity. Qed.

Lemma shr_record_of_loc_m (m : Z) (l : location) :
  shr_record_of_loc m l
  = Build_shr_record m (shr_r (shr_record_of_loc m l))
                       (shr_s (shr_record_of_loc m l)).
Proof. destruct l as [|[ | | ]]; reflexivity. Qed.

Lemma shr_shift (m : Z) (r0 s0 : bool) (e n : Z) :
  0 <= m -> 0 < n ->
  shr (Build_shr_record m r0 s0) e n
  = (Build_shr_record (m / 2 ^ n) (Z.testbit m (n - 1))
       (negb (m mod 2 ^ (n - 1) =? 0) || (r0 || s0)), e + n).
Proof.
  intros Hm Hn. destruct n as [|p|p]; try lia.
  unfold shr. rewrite iter_pos_nat.
  destruct (Pos.to_nat p) as [|j] eqn:Ej; [lia|].
  rewrite shr_iter by assumption.
  replace (Z.of_nat j) with (Zpos p - 1) by lia.
  replace (Zpos p - 1 + 1) with (Zpos p) by lia. reflexivity.
Qed.

Lemma shr_stay (mrs : shr_record) (e n : Z) :
  n <= 0 -> shr mrs e n = (mrs, e).
Proof. destruct n; try reflexivity; lia. Qed.

Lemma round_nearest_even_cases (m : Z) (l : location) :
  round_nearest_even m l = m \/ round_nearest_even m l = m + 1.
Proof.
  destruct l as [|[ | | ]]; simpl; auto. destruct (Z.even m); auto.
Qed.

(** The first shift of [binary_round_aux] on a mantissa of at least 53
    bits leaves exactly 53 of them. *)
Lemma shr_fexp_first (m e : Z) (l : location) :
  0 < m -> 53 <= Zdigits2 m -> -1074 <= Zdigits2 m + e - 53 ->
  exists mrs,
    shr_fexp prec emax m e l = (mrs, Zdigits2 m + e - 53) /\
    2 ^ 52 <= shr_m mrs < 2 ^ 53 /\
    shr_m mrs = m / 2 ^ (Zdigits2 m - 53).
Proof.
  intros Hm Hd He. unfold shr_fexp. rewrite fexp_eq.
  rewrite Z.max_l by lia.
  pose proof (Zdigits2_bounds m Hm) as [Dlo Dhi].
  destruct (Z.eq_dec (Zdigits2 m) 53) as [E53 | N53].
  - rewrite shr_stay by lia. eexists; split; [f_equal; lia|].
    rewrite shr_record_of_loc_m; cbn [shr_m].
    rewrite E53 in *. rewrite Z.sub_diag, Z.pow_0_r, Z.div_1_r.
    change (53 - 1) with 52 in Dlo. lia.
  - rewrite shr_record_of_loc_m, shr_shift by lia.
    eexists; split; [f_equal; lia|]. cbn [shr_m].
    replace (Zdigits2 m + e - 53 - e) with (Zdigits2 m - 53) by lia.
    split; [|reflexivity].
    set (n := Zdigits2 m - 53) in *.
    assert (0 < 2 ^ n) as Hp by (apply Z.pow_pos_nonneg; lia).
    assert (2 ^ (Zdigits2 m - 1) = 2 ^ 52 * 2 ^ n) as E1
      by (rewrite <- Z.pow_add_r by lia; f_equal; lia).
    assert (2 ^ Zdigits2 m = 2 ^ 53 * 2 ^ n) as E2
      by (rewrite <- Z.pow_add_r by lia; f_equal; lia).
    split.
    + apply Z.div_le_lower_bound; lia.
    + apply Z.div_lt_upper_bound; lia.
Qed.

(** The second shift renormalizes a mantissa that rounding carried to
    2^53. *)
Lemma shr_fexp_second (m e : Z) :
  2 ^ 52 <= m <= 2 ^ 53 -> -1074 <= e ->
  exists m' e',
    shr_fexp prec emax m e loc_Exact
    = (Build_shr_record (Zpos m') false false, e') /\
    Zpos (digits2_pos m') = 53 /\
    ((e' = e /\ Zpos m' = m) \/ (e' = e + 1 /\ m = 2 ^ 53 /\ Zpos m' = 2 ^ 52)).
Proof.
  intros Hm He. unfold shr_fexp. rewrite fexp_eq.
  destruct (Z.eq_dec m (2 ^ 53)) as [-> | Hne].
  - exists (2 ^ 52)%positive, (e + 1).
    change (Zdigits2 (2 ^ 53)) with 54.
    rewrite Z.max_l by lia.
    replace (54 + e - 53 - e) with 1 by lia.
    split; [reflexivity|]. split; [reflexivity|]. right. repeat split.
  - destruct m as [|p|p]; try lia.
    assert (Zpos (digits2_pos p) = 53) as Hd
      by (apply digits2_pos_unique; lia).
    exists p, e. split; [|split; [assumption|left; split; reflexivity]].
    cbn [Zdigits2]. rewrite Hd.
    rewrite Z.max_l by lia. rewrite shr_stay by lia. reflexivity.
Qed.

(** [binary_round_aux] on a mantissa of at least 53 bits whose value is not
    below the normal range gives a normal number of the same sign, or
    overflows to the infinity of that sign. *)
Lemma binary_round_aux_normal (s : bool) (m e : Z) (l : location) :
  0 < m -> 53 <= Zdigits2 m -> -1074 <= Zdigits2 m + e - 53 ->
  exists m' e',
    binary_round_aux prec emax s m e l
    = (if e' <=? 971 then S754_finite s m' e' else S754_infinity s) /\
    Zpos (digits2_pos m') = 53 /\
    Zdigits2 m + e - 53 <= e' <= Zdigits2 m + e - 52.
Proof.
  intros Hm Hd He. unfold binary_round_aux.
  destruct (shr_fexp_first m e l Hm Hd He) as (mrs & -> & Hb & _).
  destruct (round_nearest_even_cases (shr_m mrs) (loc_of_shr_record mrs))
    as [E | E].
  - destruct (shr_fexp_second (shr_m mrs) (Zdigits2 m + e - 53))
      as (m' & e' & E2 & Hd' & Hcases); [lia | lia |].
    rewrite E, E2. cbn [shr_m]. exists m', e'.
    split; [reflexivity|]. split; [assumption|]. lia.
  - destruct (shr_fexp_second (shr_m mrs + 1) (Zdigits2 m + e - 53))
      as (m' & e' & E2 & Hd' & Hcases); [lia | lia |].
    rewrite E, E2. cbn [shr_m]. exists m', e'.
    split; [reflexivity|]. split; [assumption|]. lia.
Qed.

Lemma Pos_iter_xO (m d : positive) :
  Zpos (Pos.iter xO m d) = Zpos m * 2 ^ Zpos d.
Proof.
  induction d as [|d IH] using Pos.peano_ind.
  - simpl. lia.
  - rewrite Pos.iter_succ, Pos2Z.inj_xO, IH, Pos2Z.inj_succ.
    unfold Z.succ. rewrite Z.pow_add_r by lia. lia.
Qed.

(** [shl_align] lowers the exponent to [ex'] when it lies below [ex], and
    keeps the value. *)
Lemma shl_align_spec (mx : positive) (ex ex' : Z) :
  exists mz,
    shl_align mx ex ex' = (mz, Z.min ex ex') /\
    Zpos mz = Zpos mx * 2 ^ (ex - Z.min ex ex').
Proof.
  unfold shl_align. destruct (ex' - ex) as [|d|d] eqn:E.
  - exists mx. rewrite Z.min_l by lia. rewrite Z.sub_diag.
    split; [reflexivity|lia].
  - exists mx. rewrite Z.min_l by lia. rewrite Z.sub_diag.
    split; [reflexivity|lia].
  - exists (Pos.iter xO mx d). rewrite Z.min_r by lia.
    split; [reflexivity|]. rewrite Pos_iter_xO. f_equal. f_equal. lia.
Qed.

Lemma digits2_pos_shift (m mz : positive) (k : Z) :
  0 <= k -> Zpos mz = Zpos m * 2 ^ k ->
  Zpos (digits2_pos mz) = Zpos (digits2_pos m) + k.
Proof.
  intros Hk E. apply digits2_pos_unique.
  pose proof (digits2_pos_bounds m) as [Dlo Dhi].
  assert (0 < 2 ^ k) as Hp by (apply Z.pow_pos_nonneg; lia).
  rewrite E.
  replace (Zpos (digits2_pos m) + k - 1) with (Zpos (digits2_pos m) - 1 + k)
    by lia.
  rewrite !Z.pow_add_r by lia. nia.
Qed.

(** [binary_round] on a value that is not below the normal range. *)
Lemma binary_round_normal (s : bool) (p : positive) (e : Z) :
  -1074 <= Zpos (digits2_pos p) + e - 53 ->
  exists m' e',
    binary_round prec emax s p e
    = (if e' <=? 971 then S754_finite s m' e' else S754_infinity s) /\
    Zpos (digits2_pos m') = 53 /\
    Zpos (digits2_pos p) + e - 53 <= e' <= Zpos (digits2_pos p) + e - 52.
Proof.
  intros He. unfold binary_round. rewrite fexp_eq.
  rewrite Z.max_l by lia.
  destruct (shl_align_spec p e (Zpos (digits2_pos p) + e - 53))
    as (mz & -> & Hmz).
  set (ez := Z.min e (Zpos (digits2_pos p) + e - 53)) in *.
  assert (Zpos (digits2_pos mz) = Zpos (digits2_pos p) + (e - ez)) as Hdz
    by (apply digits2_pos_shift; [lia | assumption]).
  destruct (binary_round_aux_normal s (Zpos mz) ez loc_Exact)
    as (m' & e' & E & Hd' & He'); cbn [Zdigits2]; try lia.
  exists m', e'. split; [assumption|]. split; [assumption|].
  cbn [Zdigits2] in He'. lia.
Qed.

(** A positive [size_t] converts to a normal positive double between 1 and
    2^64. *)
Lemma Prim2SF_of_size (z : Z) :
  1 <= z <= SIZE_MAX ->
  exists m e,
    Prim2SF (of_size z) = S754_finite false m e /\
    Zpos (digits2_pos m) = 53 /\ -52 <= e <= 12.
Proof.
  unfold SIZE_MAX. intros Hz. destruct z as [|p|p]; try lia.
  unfold of_size. cbn [binary_normalize].
  pose proof (digits2_pos_bounds p) as [Dlo Dhi].
  assert (1 <= Zpos (digits2_pos p) <= 64) as Hd.
  { split; [lia|].
    destruct (Z.leb_spec (Zpos (digits2_pos p)) 64) as [|Hgt]; [assumption|].
    assert (2 ^ 64 <= 2 ^ (Zpos (digits2_pos p) - 1))
      by (apply Z.pow_le_mono_r; lia). lia. }
  destruct (binary_round_normal false p 0) as (m & e & E & Hdm & He); [lia|].
  rewrite E. destruct (Z.leb_spec e 971) as [_|]; [|lia].
  exists m, e. split; [|split; [assumption|lia]].
  apply Prim2SF_SF2Prim. unfold valid_binary, bounded, canonical_mantissa.
  rewrite Hdm, fexp_eq. rewrite Z.max_l by lia.
  apply andb_true_intro; split; [apply Z.eqb_eq; lia | apply Z.leb_le].
  change (emax - prec) with 971. lia.
Qed.

Lemma of_size_0 : of_size 0 = 0%float.
Proof. reflexivity. Qed.

(** Zero divided by a positive [size_t] is zero. *)
Lemma zero_div_of_size (z : Z) :
  1 <= z <= SIZE_MAX -> (0 / of_size z)%float = 0%float.
Proof.
  intros Hz. destruct (Prim2SF_of_size z Hz) as (m & e & E & _).
  apply Prim2SF_inj. rewrite div_spec, E. reflexivity.
Qed.

Lemma Prim2SF_neg_DBL_MAX :
  Prim2SF (0 - DBL_MAX)%float = S754_finite true 9007199254740991 971.
Proof. reflexivity. Qed.

(** [-DBL_MAX] divided by a positive [size_t] is a negative number or the
    negative infinity, never a zero. *)
Lemma neg_DBL_MAX_div_of_size (z : Z) :
  1 <= z <= SIZE_MAX ->
  (exists m e,
     Prim2SF ((0 - DBL_MAX) / of_size z)%float = S754_finite true m e) \/
  Prim2SF ((0 - DBL_MAX) / of_size z)%float = S754_infinity true.
Proof.
  intros Hz. destruct (Prim2SF_of_size z Hz) as (my & ey & E & Hdy & Hey).
  rewrite div_spec, E, Prim2SF_neg_DBL_MAX.
  unfold SF64div, SFdiv, SFdiv_core_binary.
  cbn [Zdigits2 xorb]. rewrite Hdy.
  change (Zpos (digits2_pos 9007199254740991)) with 53.
  rewrite fexp_eq.
  replace (53 + 971 - (53 + ey) - 53) with (918 - ey) by lia.
  rewrite (Z.max_l (918 - ey)) by lia.
  rewrite (Z.min_l (918 - ey)) by lia.
  replace (971 - ey - (918 - ey)) with 53 by lia.
  set (num := Z.shiftl 9007199254740991 53).
  assert (num = (2 ^ 53 - 1) * 2 ^ 53) as Hnum by reflexivity.
  pose proof (Z_div_mod num (Zpos my) eq_refl) as Hdiv.
  destruct (Z.div_eucl num (Zpos my)) as [q r].
  destruct Hdiv as [Hq Hr].
  pose proof (digits2_pos_bounds my) as [Dlo Dhi]. rewrite Hdy in Dlo, Dhi.
  change (53 - 1) with 52 in Dlo.
  assert (2 ^ 53 <= q < 2 ^ 54) as Hqb.
  { assert (2 ^ 52 = 4503599627370496) as E52 by reflexivity.
    assert (2 ^ 53 = 9007199254740992) as E53 by reflexivity.
    assert (2 ^ 54 = 18014398509481984) as E54 by reflexivity.
    rewrite E53 in *. rewrite E52 in *. rewrite E54. nia. }
  assert (Zdigits2 q = 54) as Hdq
    by (apply Zdigits2_unique; [change (54 - 1) with 53|]; lia).
  destruct (binary_round_aux_normal true q (918 - ey)
              (new_location (Zpos my) r)) as (m' & e' & Eq & _ & _);
    try lia.
  rewrite Eq. destruct (e' <=? 971); [left; now exists m', e' | now right].
Qed.

(** The square root of [-DBL_MAX / r] is NaN for every [size_t] r, the zero
    included. *)
Lemma sqrt_neg_DBL_MAX_div (r : Z) :
  0 <= r <= SIZE_MAX -> sqrt ((0 - DBL_MAX) / of_size r)%float = nan.
Proof.
  intros Hr. destruct (Z.eq_dec r 0) as [-> | Hne]; [reflexivity|].
  apply Prim2SF_inj. rewrite sqrt_spec, Prim2SF_nan.
  destruct (neg_DBL_MAX_div_of_size r) as [(m & e & ->) | ->];
    [lia | reflexivity | reflexivity].
Qed.

(** ** Rounding is monotone *)

Lemma Zdigits2_le (a b : Z) : 0 < a -> a <= b -> Zdigits2 a <= Zdigits2 b.
Proof.
  intros Ha Hab.
  pose proof (Zdigits2_bounds a Ha) as [Alo Ahi].
  pose proof (Zdigits2_bounds b ltac:(lia)) as [Blo Bhi].
  destruct (Z.leb_spec (Zdigits2 a) (Zdigits2 b)) as [|Hgt]; [assumption|].
  assert (2 ^ Zdigits2 b <= 2 ^ (Zdigits2 a - 1))
    by (apply Z.pow_le_mono_r; lia). lia.
Qed.

Lemma Zdigits2_mul_pow2 (m j : Z) :
  0 < m -> 0 <= j -> Zdigits2 (m * 2 ^ j) = Zdigits2 m + j.
Proof.
  intros Hm Hj. pose proof (Zdigits2_bounds m Hm) as [Dlo Dhi].
  pose proof (Zdigits2_pos m Hm) as Hd.
  assert (0 < 2 ^ j) as Hp by (apply Z.pow_pos_nonneg; lia).
  apply Zdigits2_unique; [|nia].
  replace (Zdigits2 m + j - 1) with (Zdigits2 m - 1 + j) by lia.
  rewrite !Z.pow_add_r by lia. nia.
Qed.

Lemma round_k_nonneg (N : Z) : 0 <= round_k N.
Proof. unfold round_k. lia. Qed.

Lemma round_k_pow_pos (N : Z) : 0 < 2 ^ round_k N.
Proof. apply Z.pow_pos_nonneg; [lia | apply round_k_nonneg]. Qed.

Lemma round_k_lt_digits (N : Z) : 0 < N -> round_k N <= Zdigits2 N - 1.
Proof. intros HN. pose proof (Zdigits2_pos N HN). unfold round_k. lia. Qed.

(** The lower power of two of the binade of [N] is on the grid. *)
Lemma round_raw_binade (N : Z) :
  0 < N ->
  2 ^ (Zdigits2 N - 1) = 2 ^ (Zdigits2 N - 1 - round_k N) * 2 ^ round_k N.
Proof.
  intros HN. pose proof (round_k_lt_digits N HN). pose proof (round_k_nonneg N).
  rewrite <- Z.pow_add_r by lia. f_equal. lia.
Qed.

Lemma round_raw_q_bounds (N : Z) :
  0 < N ->
  2 ^ (Zdigits2 N - 1 - round_k N) <= N / 2 ^ round_k N
    < 2 ^ (Zdigits2 N - round_k N).
Proof.
  intros HN.
  pose proof (round_k_pow_pos N) as Hp.
  pose proof (Zdigits2_bounds N HN) as [Dlo Dhi].
  pose proof (round_k_lt_digits N HN). pose proof (round_k_nonneg N).
  split.
  - apply Z.div_le_lower_bound; [lia|].
    rewrite Z.mul_comm, <- round_raw_binade; assumption.
  - apply Z.div_lt_upper_bound; [lia|].
    rewrite <- Z.pow_add_r by lia.
    replace (round_k N + (Zdigits2 N - round_k N)) with (Zdigits2 N) by lia.
    assumption.
Qed.

Lemma round_raw_cases (N : Z) :
  round_raw N = N / 2 ^ round_k N * 2 ^ round_k N \/
  round_raw N = (N / 2 ^ round_k N + 1) * 2 ^ round_k N.
Proof.
  unfold round_raw, round_q.
  destruct (round_up_bit _ _ _); auto.
Qed.

Lemma round_raw_bounds (N : Z) :
  0 < N -> 2 ^ (Zdigits2 N - 1) <= round_raw N <= 2 ^ Zdigits2 N.
Proof.
  intros HN.
  pose proof (round_k_pow_pos N) as Hp.
  pose proof (round_raw_q_bounds N HN) as [Qlo Qhi].
  pose proof (round_k_lt_digits N HN). pose proof (round_k_nonneg N).
  assert (2 ^ Zdigits2 N = 2 ^ (Zdigits2 N - round_k N) * 2 ^ round_k N) as E
    by (rewrite <- Z.pow_add_r by lia; f_equal; lia).
  rewrite (round_raw_binade N HN), E.
  destruct (round_raw_cases N) as [-> | ->]; nia.
Qed.

Lemma round_raw_0 : round_raw 0 = 0.
Proof. reflexivity. Qed.

(** Rounding to nearest, ties to even, never goes down as the number goes
    up. *)
Lemma round_raw_mono (N1 N2 : Z) :
  0 <= N1 <= N2 -> round_raw N1 <= round_raw N2.
Proof.
  intros [H1 H12].
  destruct (Z.eq_dec N1 0) as [-> | Hne1].
  { rewrite round_raw_0. destruct (Z.eq_dec N2 0) as [-> | Hne2];
      [rewrite round_raw_0; lia|].
    pose proof (round_raw_bounds N2 ltac:(lia)) as [Blo _].
    assert (0 < 2 ^ (Zdigits2 N2 - 1)); [|lia].
    apply Z.pow_pos_nonneg; [lia|].
    pose proof (Zdigits2_pos N2 ltac:(lia)). lia. }
  assert (0 < N1) as P1 by lia. assert (0 < N2) as P2 by lia.
  pose proof (Zdigits2_le N1 N2 P1 H12) as Hd.
  destruct (Z.eq_dec (Zdigits2 N1) (Zdigits2 N2)) as [Ed | Nd].
  - (* the same binade: the same grid *)
    assert (round_k N1 = round_k N2) as Ek by (unfold round_k; now rewrite Ed).
    pose proof (round_k_pow_pos N2) as Hp.
    unfold round_raw, round_q. rewrite Ek.
    set (k := round_k N2) in *.
    pose proof (Z.div_mod N1 (2 ^ k) ltac:(lia)) as E1.
    pose proof (Z.div_mod N2 (2 ^ k) ltac:(lia)) as E2.
    pose proof (Z.mod_pos_bound N1 (2 ^ k) Hp) as R1.
    pose proof (Z.mod_pos_bound N2 (2 ^ k) Hp) as R2.
    assert (N1 / 2 ^ k <= N2 / 2 ^ k) as Hq
      by (apply Z.div_le_mono; lia).
    set (q1 := N1 / 2 ^ k) in *. set (q2 := N2 / 2 ^ k) in *.
    set (r1 := N1 mod 2 ^ k) in *. set (r2 := N2 mod 2 ^ k) in *.
    destruct (Z.eq_dec q1 q2) as [Eq | Nq].
    + assert (r1 <= r2) as Hr by nia.
      rewrite Eq. unfold round_up_bit.
      destruct (Z.ltb_spec (2 ^ k) (2 * r1)) as [L1 | L1];
        destruct (Z.ltb_spec (2 ^ k) (2 * r2)) as [L2 | L2];
        cbn [orb]; try nia;
        destruct (Z.eqb_spec (2 ^ k) (2 * r1)) as [T1 | T1];
        destruct (Z.eqb_spec (2 ^ k) (2 * r2)) as [T2 | T2];
        cbn [andb]; try nia;
        destruct (Z.odd q2); nia.
    + assert (q1 + 1 <= q2) as Hlt by lia.
      destruct (round_up_bit k q1 r1), (round_up_bit k q2 r2); nia.
  - (* a lower binade *)
    pose proof (round_raw_bounds N1 P1) as [_ B1].
    pose proof (round_raw_bounds N2 P2) as [B2 _].
    assert (2 ^ Zdigits2 N1 <= 2 ^ (Zdigits2 N2 - 1))
      by (apply Z.pow_le_mono_r; lia).
    lia.
Qed.

Lemma round_units_mono (N1 N2 : Z) :
  0 <= N1 <= N2 -> round_units N1 <= round_units N2.
Proof.
  intros H12. unfold round_units.
  pose proof (round_raw_mono N1 N2 H12). lia.
Qed.

Lemma round_up_bit_exact (k q : Z) : 0 <= k -> round_up_bit k q 0 = false.
Proof.
  intros Hk. unfold round_up_bit.
  pose proof (Z.pow_pos_nonneg 2 k ltac:(lia) Hk).
  destruct (Z.ltb_spec (2 ^ k) (2 * 0)); [lia|].
  destruct (Z.eqb_spec (2 ^ k) (2 * 0)); [lia|]. reflexivity.
Qed.

(** Scaling the remainder and the grid by the same power of two does not
    change the direction of the rounding. *)
Lemma round_up_bit_scale (n j q rem : Z) :
  0 <= n -> 0 <= j ->
  round_up_bit (n + j) q (rem * 2 ^ j) = round_up_bit n q rem.
Proof.
  intros Hn Hj. unfold round_up_bit.
  rewrite Z.pow_add_r by lia.
  assert (0 < 2 ^ j) as Hp by (apply Z.pow_pos_nonneg; lia).
  f_equal; [|f_equal].
  - destruct (Z.ltb_spec (2 ^ n * 2 ^ j) (2 * (rem * 2 ^ j)));
      destruct (Z.ltb_spec (2 ^ n) (2 * rem)); try reflexivity; nia.
  - destruct (Z.eqb_spec (2 ^ n * 2 ^ j) (2 * (rem * 2 ^ j)));
      destruct (Z.eqb_spec (2 ^ n) (2 * rem)); try reflexivity; nia.
Qed.

(** The rounded quotient is the number itself below 2^53, and a 53-bit
    number or 2^53 above. *)
Lemma round_q_range (N : Z) :
  0 < N ->
  (round_k N = 0 /\ round_q N = N /\ N < 2 ^ 53) \/
  (0 < round_k N /\ 2 ^ 52 <= round_q N <= 2 ^ 53).
Proof.
  intros HN. pose proof (round_raw_q_bounds N HN) as [Qlo Qhi].
  pose proof (Zdigits2_bounds N HN) as [Dlo Dhi].
  unfold round_q. unfold round_k in *.
  destruct (Z.max_spec (Zdigits2 N - 53) 0) as [[Hlt E] | [Hge E]];
    rewrite E in *; clear E.
  - left. split; [reflexivity|].
    rewrite Z.pow_0_r, Z.div_1_r, Z.mod_1_r, round_up_bit_exact by lia.
    split; [reflexivity|].
    assert (2 ^ Zdigits2 N <= 2 ^ 53) by (apply Z.pow_le_mono_r; lia). lia.
  - destruct (Z.eq_dec (Zdigits2 N) 53) as [E53 | N53].
    + left. rewrite E53 in *. split; [reflexivity|].
      change (53 - 53) with 0.
      rewrite Z.pow_0_r, Z.div_1_r, Z.mod_1_r, round_up_bit_exact by lia.
      split; [reflexivity | lia].
    + right. split; [lia|].
      replace (Zdigits2 N - 1 - (Zdigits2 N - 53)) with 52 in Qlo by lia.
      replace (Zdigits2 N - (Zdigits2 N - 53)) with 53 in Qhi by lia.
      destruct (round_up_bit _ _ _); lia.
Qed.

(** ** Valid doubles *)

Lemma valid_finite (s : bool) (m : positive) (e : Z) :
  valid_binary (S754_finite s m e) = true ->
  -1074 <= e <= 971 /\ Zpos (digits2_pos m) <= 53 /\
  (-1074 < e -> Zpos (digits2_pos m) = 53).
Proof.
  unfold valid_binary, bounded, canonical_mantissa. rewrite fexp_eq.
  intros Hv. apply andb_prop in Hv as [Hc Hb].
  apply Z.eqb_eq in Hc. apply Z.leb_le in Hb.
  change (emax - prec) with 971 in Hb. lia.
Qed.

Lemma INF_units_eq : INF_units = 2 ^ 53 * 2 ^ (971 + 1074).
Proof. reflexivity. Qed.

Lemma units_finite_lt_INF (s : bool) (m : positive) (e : Z) :
  valid_binary (S754_finite s m e) = true ->
  0 < units (S754_finite s m e) < INF_units.
Proof.
  intros Hv. apply valid_finite in Hv as (He & Hd & _).
  pose proof (digits2_pos_bounds m) as [_ Dhi].
  cbn [units].
  assert (0 < 2 ^ (e + 1074)) as Hp by (apply Z.pow_pos_nonneg; lia).
  split; [nia|].
  assert (2 ^ Zpos (digits2_pos m) <= 2 ^ 53) by (apply Z.pow_le_mono_r; lia).
  assert (2 ^ (e + 1074) <= 2 ^ (971 + 1074)) by (apply Z.pow_le_mono_r; lia).
  rewrite INF_units_eq.
  assert (0 < 2 ^ 53) by (apply Z.pow_pos_nonneg; lia).
  nia.
Qed.

Lemma units_nonneg (x : spec_float) :
  valid_binary x = true -> 0 <= units x.
Proof.
  destruct x as [s|s| |s m e]; intros Hv.
  - cbn [units]. lia.
  - cbn [units]. unfold INF_units. apply Z.pow_nonneg. lia.
  - cbn [units]. lia.
  - pose proof (units_finite_lt_INF s m e Hv). lia.
Qed.

(** ** Rounding, comparison and addition in whole units *)

Lemma round_units_ge_INF (N : Z) :
  INF_units <= N -> round_units N = INF_units.
Proof.
  intros HN. unfold round_units.
  assert (0 < INF_units) as HI by reflexivity.
  pose proof (Zdigits2_bounds N ltac:(lia)) as [_ Dhi].
  pose proof (round_raw_bounds N ltac:(lia)) as [Rlo _].
  assert (2098 < Zdigits2 N) as Hd.
  { destruct (Z.ltb_spec 2098 (Zdigits2 N)) as [|Hle]; [assumption|].
    assert (2 ^ Zdigits2 N <= 2 ^ 2098) by (apply Z.pow_le_mono_r; lia).
    unfold INF_units in HN. lia. }
  assert (2 ^ 2098 <= 2 ^ (Zdigits2 N - 1)) by (apply Z.pow_le_mono_r; lia).
  unfold INF_units in *. lia.
Qed.

(** A number that fits in 53 significant bits is not moved by the
    rounding. *)
Lemma round_raw_fits (m j : Z) :
  0 < m < 2 ^ 53 -> 0 <= j -> round_raw (m * 2 ^ j) = m * 2 ^ j.
Proof.
  intros Hm Hj.
  assert (0 < 2 ^ j) as Hp by (apply Z.pow_pos_nonneg; lia).
  pose proof (Zdigits2_bounds m ltac:(lia)) as [Dlo Dhi].
  pose proof (Zdigits2_pos m ltac:(lia)) as Hd.
  assert (Zdigits2 m <= 53) as Hd53.
  { destruct (Z.leb_spec (Zdigits2 m) 53) as [|Hgt]; [assumption|].
    assert (2 ^ 53 <= 2 ^ (Zdigits2 m - 1)) by (apply Z.pow_le_mono_r; lia).
    lia. }
  unfold round_raw, round_q, round_k.
  rewrite Zdigits2_mul_pow2 by lia.
  set (k := Z.max (Zdigits2 m + j - 53) 0).
  assert (0 <= k <= j) as Hk by (subst k; lia).
  assert (0 < 2 ^ k) as Hpk by (apply Z.pow_pos_nonneg; lia).
  assert (2 ^ j = 2 ^ (j - k) * 2 ^ k) as Ej
    by (rewrite <- Z.pow_add_r by lia; f_equal; lia).
  rewrite Ej, Z.mul_assoc, Z.div_mul, Z.mod_mul by lia.
  rewrite round_up_bit_exact by lia. reflexivity.
Qed.

Lemma round_units_representable (x : spec_float) :
  valid_binary x = true -> round_units (units x) = units x.
Proof.
  destruct x as [s|s| |s m e]; intros Hv; try reflexivity.
  pose proof (units_finite_lt_INF s m e Hv) as [_ Hlt].
  apply valid_finite in Hv as (He & Hd & _).
  pose proof (digits2_pos_bounds m) as [_ Dhi].
  assert (2 ^ Zpos (digits2_pos m) <= 2 ^ 53) by (apply Z.pow_le_mono_r; lia).
  unfold round_units. cbn [units] in *.
  rewrite round_raw_fits by lia. lia.
Qed.

(** On valid doubles that are not negative the comparison of [SpecFloat] is
    the comparison of the whole numbers. *)
Lemma SFcompare_units (x y : spec_float) :
  valid_binary x = true -> valid_binary y = true ->
  nonneg_sf x = true -> nonneg_sf y = true ->
  SFcompare x y = Some (units x ?= units y).
Proof.
  intros Vx Vy Nx Ny.
  destruct x as [sx|sx| |sx mx ex]; try discriminate;
    destruct y as [sy|sy| |sy my ey]; try discriminate;
    cbn [nonneg_sf] in Nx, Ny;
    try (apply negb_true_iff in Nx; subst sx);
    try (apply negb_true_iff in Ny; subst sy).
  - reflexivity.
  - reflexivity.
  - pose proof (units_finite_lt_INF false my ey Vy) as [Hpos _].
    cbn [SFcompare]. f_equal. symmetry. apply Z.compare_lt_iff.
    cbn [units] in *. lia.
  - reflexivity.
  - reflexivity.
  - pose proof (units_finite_lt_INF false my ey Vy) as [_ Hlt].
    cbn [SFcompare]. f_equal. symmetry. apply Z.compare_gt_iff.
    cbn [units] in *. lia.
  - pose proof (units_finite_lt_INF false mx ex Vx) as [Hpos _].
    cbn [SFcompare]. f_equal. symmetry. apply Z.compare_gt_iff.
    cbn [units] in *. lia.
  - pose proof (units_finite_lt_INF false mx ex Vx) as [_ Hlt].
    cbn [SFcompare]. f_equal. symmetry. apply Z.compare_lt_iff.
    cbn [units] in *. lia.
  - apply valid_finite in Vx as (Hex & Hdx & Hnx).
    apply valid_finite in Vy as (Hey & Hdy & Hny).
    pose proof (digits2_pos_bounds mx) as [Xlo Xhi].
    pose proof (digits2_pos_bounds my) as [Ylo Yhi].
    assert (2 ^ Zpos (digits2_pos mx) <= 2 ^ 53)
      by (apply Z.pow_le_mono_r; lia).
    assert (2 ^ Zpos (digits2_pos my) <= 2 ^ 53)
      by (apply Z.pow_le_mono_r; lia).
    assert (0 < 2 ^ (ex + 1074)) as Px by (apply Z.pow_pos_nonneg; lia).
    assert (0 < 2 ^ (ey + 1074)) as Py by (apply Z.pow_pos_nonneg; lia).
    assert (2 ^ 53 = 2 * 2 ^ 52) as E53 by reflexivity.
    cbn [SFcompare units]. f_equal.
    destruct (Z.compare_spec ex ey) as [E | Hlt | Hgt].
    + subst ey. rewrite Pos.compare_cont_spec.
      change (Pos.compare mx my) with (Zpos mx ?= Zpos my).
      rewrite (Zmult_compare_compat_r (Zpos mx) (Zpos my) (2 ^ (ex + 1074)))
        by lia.
      now destruct (_ ?= _).
    + symmetry. apply Z.compare_lt_iff.
      rewrite (Hny ltac:(lia)) in Ylo. change (53 - 1) with 52 in Ylo.
      assert (2 ^ (ey + 1074) = 2 ^ (ey - ex - 1) * (2 * 2 ^ (ex + 1074))) as E.
      { replace (2 * 2 ^ (ex + 1074)) with (2 ^ (1 + (ex + 1074)))
          by (rewrite Z.pow_add_r by lia; reflexivity).
        rewrite <- Z.pow_add_r by lia. f_equal. lia. }
      assert (0 < 2 ^ (ey - ex - 1)) by (apply Z.pow_pos_nonneg; lia).
      rewrite E. nia.
    + symmetry. apply Z.compare_gt_iff.
      rewrite (Hnx ltac:(lia)) in Xlo. change (53 - 1) with 52 in Xlo.
      assert (2 ^ (ex + 1074) = 2 ^ (ex - ey - 1) * (2 * 2 ^ (ey + 1074))) as E.
      { replace (2 * 2 ^ (ey + 1074)) with (2 ^ (1 + (ey + 1074)))
          by (rewrite Z.pow_add_r by lia; reflexivity).
        rewrite <- Z.pow_add_r by lia. f_equal. lia. }
      assert (0 < 2 ^ (ex - ey - 1)) by (apply Z.pow_pos_nonneg; lia).
      rewrite E. nia.
Qed.

(** The rounding decision of [binary_round_aux] after a right shift by [n]
    is the one of [round_up_bit]. *)
Lemma round_after_shift (M n e : Z) :
  0 <= M -> 0 < n ->
  round_nearest_even
    (shr_m (fst (shr (Build_shr_record M false false) e n)))
    (loc_of_shr_record (fst (shr (Build_shr_record M false false) e n)))
  = if round_up_bit n (M / 2 ^ n) (M mod 2 ^ n)
    then M / 2 ^ n + 1 else M / 2 ^ n.
Proof.
  intros HM Hn. rewrite shr_shift by assumption.
  cbn [fst shr_m loc_of_shr_record orb].
  assert (0 < 2 ^ (n - 1)) as Hp by (apply Z.pow_pos_nonneg; lia).
  assert (2 ^ n = 2 ^ (n - 1) * 2) as En.
  { replace n with (n - 1 + 1) at 1 by lia.
    rewrite Z.pow_add_r by lia. reflexivity. }
  pose proof (Z.testbit_spec' M (n - 1) ltac:(lia)) as Hbit.
  pose proof (Z.mod_pos_bound M (2 ^ (n - 1)) Hp) as Ht.
  assert (M mod 2 ^ n
          = M mod 2 ^ (n - 1) + 2 ^ (n - 1) * Z.b2z (Z.testbit M (n - 1)))
    as Erem by (rewrite En, Z.rem_mul_r, Hbit by lia; reflexivity).
  rewrite Erem. unfold round_up_bit. rewrite En.
  set (t := M mod 2 ^ (n - 1)) in *. set (h := 2 ^ (n - 1)) in *.
  set (q := M / (h * 2)).
  rewrite <- Z.negb_even.
  destruct (Z.testbit M (n - 1)); cbn [Z.b2z];
    destruct (Z.eqb_spec t 0) as [E0 | E0]; cbn [negb orb];
    cbn [round_nearest_even];
    destruct (Z.ltb_spec (h * 2) (2 * (t + h * 1))) as [L | L];
    destruct (Z.ltb_spec (h * 2) (2 * (t + h * 0))) as [L' | L'];
    destruct (Z.eqb_spec (h * 2) (2 * (t + h * 1))) as [T | T];
    destruct (Z.eqb_spec (h * 2) (2 * (t + h * 0))) as [T' | T'];
    cbn [orb andb negb]; try lia; try reflexivity;
    destruct (Z.even q); reflexivity.
Qed.

(** The first shift and the rounding of [binary_round_aux] on an exact
    input compute [round_q]. *)
Lemma shr_fexp_exact_round (mz : positive) (ez : Z) :
  -1074 <= ez -> ez <= fexp prec emax (Zpos (digits2_pos mz) + ez) ->
  exists mrs,
    shr_fexp prec emax (Zpos mz) ez loc_Exact
    = (mrs, round_k (Zpos mz * 2 ^ (ez + 1074)) - 1074) /\
    round_nearest_even (shr_m mrs) (loc_of_shr_record mrs)
    = round_q (Zpos mz * 2 ^ (ez + 1074)).
Proof.
  intros He Hfe. rewrite fexp_eq in Hfe.
  set (j := ez + 1074). assert (0 <= j) as Hj by (subst j; lia).
  assert (0 < 2 ^ j) as Hp by (apply Z.pow_pos_nonneg; lia).
  assert (round_k (Zpos mz * 2 ^ j)
          = Z.max (Zpos (digits2_pos mz) + ez - 53) (-1074) + 1074) as Ek.
  { unfold round_k. rewrite Zdigits2_mul_pow2 by lia.
    cbn [Zdigits2]. subst j. lia. }
  unfold shr_fexp, round_q. rewrite Ek, fexp_eq. cbn [Zdigits2].
  set (E := Z.max (Zpos (digits2_pos mz) + ez - 53) (-1074)) in *.
  replace (E + 1074 - 1074) with E by lia.
  destruct (Z.eq_dec E ez) as [Eeq | Ene].
  - rewrite shr_stay by lia. exists (shr_record_of_loc (Zpos mz) loc_Exact).
    split; [f_equal; lia|].
    cbn [shr_record_of_loc shr_m loc_of_shr_record round_nearest_even].
    replace (E + 1074) with j by (subst j; lia).
    rewrite Z.div_mul, Z.mod_mul, round_up_bit_exact by lia. reflexivity.
  - cbn [shr_record_of_loc].
    pose proof (round_after_shift (Zpos mz) (E - ez) ez ltac:(lia) ltac:(lia))
      as Hr.
    destruct (shr (Build_shr_record (Zpos mz) false false) ez (E - ez))
      as [mrs e1] eqn:Es.
    assert (e1 = E) as ->.
    { rewrite shr_shift in Es by lia. inversion Es. lia. }
    cbn [fst] in Hr. exists mrs. split; [reflexivity|].
    rewrite Hr.
    assert (0 < 2 ^ (E - ez)) as Hpn by (apply Z.pow_pos_nonneg; lia).
    replace (E + 1074) with (E - ez + j) by (subst j; lia).
    rewrite (Z.pow_add_r 2 (E - ez) j) by lia.
    rewrite Z.div_mul_cancel_r by lia.
    rewrite Z.mul_mod_distr_r by lia.
    rewrite round_up_bit_scale by lia. reflexivity.
Qed.

(** [binary_round_aux] on an exact input rounds the whole number of units to
    nearest, ties to even, with overflow to the infinity. *)
Lemma binary_round_aux_units (mz : positive) (ez : Z) :
  -1074 <= ez -> ez <= fexp prec emax (Zpos (digits2_pos mz) + ez) ->
  nonneg_sf (binary_round_aux prec emax false (Zpos mz) ez loc_Exact) = true /\
  units (binary_round_aux prec emax false (Zpos mz) ez loc_Exact)
  = round_units (Zpos mz * 2 ^ (ez + 1074)).
Proof.
  intros He Hfe. unfold binary_round_aux.
  destruct (shr_fexp_exact_round mz ez He Hfe) as (mrs & -> & ->).
  set (N := Zpos mz * 2 ^ (ez + 1074)).
  assert (0 < N) as HN.
  { subst N. assert (0 < 2 ^ (ez + 1074)) by (apply Z.pow_pos_nonneg; lia).
    nia. }
  unfold round_units, round_raw.
  assert (2 ^ 53 = 2 * 2 ^ 52) as E53 by reflexivity.
  assert (0 < 2 ^ 52) as P52 by reflexivity.
  destruct (round_q_range N HN) as [(Hk & Hq & Hlt) | (Hk & Hqb)].
  - (* below 2^53: the number is kept as it is, at the lowest exponent *)
    rewrite Hk, Hq. change (0 - 1074) with (-1074).
    assert (Zdigits2 N <= 53) as Hd by (unfold round_k in Hk; lia).
    unfold shr_fexp. rewrite fexp_eq, shr_stay by lia.
    cbn [shr_record_of_loc shr_m].
    destruct N as [|p|p] eqn:EN; try lia.
    change (-1074 <=? emax - prec) with true. cbn [nonneg_sf negb units].
    split; [reflexivity|].
    change (-1074 + 1074) with 0. rewrite Z.pow_0_r, Z.mul_1_r.
    assert (2 ^ 53 < INF_units) by reflexivity. lia.
  - (* a 53-bit quotient, or 2^53 after a carry *)
    pose proof (round_k_nonneg N) as Hk0.
    destruct (shr_fexp_second (round_q N) (round_k N - 1074))
      as (m' & e' & -> & Hd' & Hcases); [lia | lia |].
    cbn [shr_m].
    pose proof (digits2_pos_bounds m') as [Mlo Mhi]. rewrite Hd' in Mlo, Mhi.
    change (53 - 1) with 52 in Mlo.
    change (emax - prec) with 971.
    assert (Zpos m' * 2 ^ (e' + 1074) = round_q N * 2 ^ round_k N) as Eu.
    { destruct Hcases as [(-> & ->) | (-> & -> & ->)].
      - f_equal. f_equal. lia.
      - replace (round_k N - 1074 + 1 + 1074) with (1 + round_k N) by lia.
        rewrite Z.pow_add_r by lia. change (2 ^ 1) with 2. lia. }
    assert (-1074 < e') as He' by lia.
    assert (0 < 2 ^ (e' + 1074)) as Pe by (apply Z.pow_pos_nonneg; lia).
    rewrite <- Eu.
    destruct (Z.leb_spec e' 971) as [Hle | Hgt]; cbn [nonneg_sf negb units];
      (split; [reflexivity|]).
    + assert (2 ^ (e' + 1074) <= 2 ^ (971 + 1074))
        by (apply Z.pow_le_mono_r; lia).
      rewrite INF_units_eq. nia.
    + assert (2 ^ (972 + 1074) <= 2 ^ (e' + 1074))
        by (apply Z.pow_le_mono_r; lia).
      assert (INF_units = 2 ^ 52 * 2 ^ (972 + 1074)) as EI by reflexivity.
      rewrite EI. nia.
Qed.

(** [binary_round] keeps the value while it aligns the mantissa, so it
    rounds in the same way. *)
Lemma binary_round_units (M : positive) (e : Z) :
  -1074 <= e ->
  nonneg_sf (binary_round prec emax false M e) = true /\
  units (binary_round prec emax false M e)
  = round_units (Zpos M * 2 ^ (e + 1074)).
Proof.
  intros He. unfold binary_round.
  set (E := fexp prec emax (Zpos (digits2_pos M) + e)).
  assert (-1074 <= E) as HE by (subst E; rewrite fexp_eq; lia).
  destruct (shl_align_spec M e E) as (mz & -> & Hmz).
  set (ez := Z.min e E) in *.
  assert (Zpos (digits2_pos mz) = Zpos (digits2_pos M) + (e - ez)) as Hdz
    by (apply digits2_pos_shift; [lia | assumption]).
  assert (Zpos M * 2 ^ (e + 1074) = Zpos mz * 2 ^ (ez + 1074)) as EN.
  { rewrite Hmz, <- Z.mul_assoc, <- Z.pow_add_r by lia.
    f_equal. f_equal. lia. }
  rewrite EN. apply binary_round_aux_units; [lia|].
  rewrite Hdz. replace (Zpos (digits2_pos M) + (e - ez) + ez)
    with (Zpos (digits2_pos M) + e) by lia.
  fold E. lia.
Qed.

(** The sum of two doubles that are not negative is the rounding of the sum
    of their whole numbers of units. *)
Lemma SFadd_units (x y : spec_float) :
  valid_binary x = true -> valid_binary y = true ->
  nonneg_sf x = true -> nonneg_sf y = true ->
  nonneg_sf (SF64add x y) = true /\
  units (SF64add x y) = round_units (units x + units y).
Proof.
  intros Vx Vy Nx Ny.
  pose proof (units_nonneg x Vx) as Ux. pose proof (units_nonneg y Vy) as Uy.
  destruct x as [sx|sx| |sx mx ex]; try discriminate;
    destruct y as [sy|sy| |sy my ey]; try discriminate;
    cbn [nonneg_sf] in Nx, Ny;
    try (apply negb_true_iff in Nx; subst sx);
    try (apply negb_true_iff in Ny; subst sy).
  - destruct sx, sy; split; reflexivity.
  - split; [reflexivity|]. cbn [SF64add SFadd units].
    symmetry. apply round_units_ge_INF. lia.
  - split; [reflexivity|]. cbn [SF64add SFadd].
    rewrite Z.add_0_l. symmetry. now apply round_units_representable.
  - split; [reflexivity|]. cbn [SF64add SFadd units].
    symmetry. apply round_units_ge_INF. lia.
  - split; [reflexivity|]. cbn [SF64add SFadd units].
    symmetry. apply round_units_ge_INF. unfold INF_units. lia.
  - split; [reflexivity|]. cbn [SF64add SFadd].
    symmetry. apply round_units_ge_INF. cbn [units] in *. lia.
  - split; [reflexivity|]. cbn [SF64add SFadd].
    rewrite Z.add_0_r. symmetry. now apply round_units_representable.
  - split; [reflexivity|]. cbn [SF64add SFadd].
    symmetry. apply round_units_ge_INF. cbn [units] in *. lia.
  - apply valid_finite in Vx as (Hex & _).
    apply valid_finite in Vy as (Hey & _).
    unfold SF64add, SFadd. cbn [cond_Zopp].
    set (ez := Z.min ex ey).
    destruct (shl_align_spec mx ex ez) as (ax & Eax & Hax).
    destruct (shl_align_spec my ey ez) as (ay & Eay & Hay).
    rewrite Eax, Eay. cbn [fst].
    replace (Z.min ex ez) with ez in Hax by (subst ez; lia).
    replace (Z.min ey ez) with ez in Hay by (subst ez; lia).
    change (Zpos ax + Zpos ay) with (Zpos (ax + ay)).
    cbn [binary_normalize].
    assert (units (S754_finite false mx ex) + units (S754_finite false my ey)
            = Zpos (ax + ay) * 2 ^ (ez + 1074)) as EN.
    { cbn [units]. rewrite Pos2Z.inj_add, Hax, Hay, Z.mul_add_distr_r.
      rewrite <- !Z.mul_assoc, <- !Z.pow_add_r by (subst ez; lia).
      f_equal; f_equal; f_equal; lia. }
    rewrite EN. apply binary_round_units. subst ez. lia.
Qed.

(** ** Adding a sample to a seed *)

Lemma Prim2SF_one : Prim2SF 1%float = S754_finite false 4503599627370496 (-52).
Proof. reflexivity. Qed.

Lemma leb_0_nonneg (x : float) :
  (0 <=? x)%float = true <-> nonneg_sf (Prim2SF x) = true.
Proof.
  rewrite leb_spec, Prim2SF_zero. unfold SFleb.
  destruct (Prim2SF x) as [s|s| |s m e]; cbn [SFcompare nonneg_sf];
    try destruct s; cbn [negb]; split; intros; congruence.
Qed.

Lemma leb_units (x y : float) :
  nonneg_sf (Prim2SF x) = true -> nonneg_sf (Prim2SF y) = true ->
  (x <=? y)%float = true <-> units (Prim2SF x) <= units (Prim2SF y).
Proof.
  intros Nx Ny. rewrite leb_spec. unfold SFleb.
  rewrite (SFcompare_units _ _ (Prim2SF_valid x) (Prim2SF_valid y) Nx Ny).
  destruct (Z.compare_spec (units (Prim2SF x)) (units (Prim2SF y)));
    split; intros; try reflexivity; try discriminate; lia.
Qed.

Lemma ltb_units (x y : float) :
  nonneg_sf (Prim2SF x) = true -> nonneg_sf (Prim2SF y) = true ->
  (x <? y)%float = true <-> units (Prim2SF x) < units (Prim2SF y).
Proof.
  intros Nx Ny. rewrite ltb_spec. unfold SFltb.
  rewrite (SFcompare_units _ _ (Prim2SF_valid x) (Prim2SF_valid y) Nx Ny).
  destruct (Z.compare_spec (units (Prim2SF x)) (units (Prim2SF y)));
    split; intros; try reflexivity; try discriminate; lia.
Qed.

Lemma add_units (x y : float) :
  nonneg_sf (Prim2SF x) = true -> nonneg_sf (Prim2SF y) = true ->
  nonneg_sf (Prim2SF (x + y)%float) = true /\
  units (Prim2SF (x + y)%float)
  = round_units (units (Prim2SF x) + units (Prim2SF y)).
Proof.
  intros Nx Ny. rewrite add_spec.
  apply SFadd_units; auto using Prim2SF_valid.
Qed.

(** A sample of [0,1) added to a seed that is not negative gives a double
    between the seed and the seed plus one, both ends included. *)
Lemma add_sample_in_closed_range (u s : float) :
  unit_interval u -> (0 <=? s)%float = true ->
  in_closed_seed_range s (u + s)%float = true.
Proof.
  intros [Hu0 Hu1] Hs.
  apply leb_0_nonneg in Hu0, Hs.
  assert (nonneg_sf (Prim2SF 1) = true) as N1 by reflexivity.
  apply (ltb_units u 1 Hu0 N1) in Hu1.
  destruct (add_units u s Hu0 Hs) as [Nus Eus].
  destruct (add_units s 1 Hs N1) as [Ns1 Es1].
  pose proof (units_nonneg _ (Prim2SF_valid u)) as Uu.
  pose proof (units_nonneg _ (Prim2SF_valid s)) as Us.
  unfold in_closed_seed_range. apply andb_true_intro. split.
  - apply (leb_units _ _ Hs Nus). rewrite Eus.
    rewrite <- (round_units_representable _ (Prim2SF_valid s)) at 1.
    apply round_units_mono. lia.
  - apply (leb_units _ _ Nus Ns1). rewrite Eus, Es1.
    apply round_units_mono. lia.
Qed.

(** A square root is NaN or not negative. *)
Lemma binary_round_aux_sign (m e : Z) (l : location) :
  binary_round_aux prec emax false m e l = S754_nan \/
  nonneg_sf (binary_round_aux prec emax false m e l) = true.
Proof.
  unfold binary_round_aux.
  destruct (shr_fexp prec emax m e l) as [mrs' e'].
  destruct (shr_fexp prec emax _ e' loc_Exact) as [mrs'' e''].
  destruct (shr_m mrs'') as [|p|p]; [right | | left]; try reflexivity.
  destruct (e'' <=? emax - prec); right; reflexivity.
Qed.

Lemma sqrt_nan_or_nonneg (x : float) :
  sqrt x = nan \/ (0 <=? sqrt x)%float = true.
Proof.
  destruct (Prim2SF (sqrt x)) as [s|s| |s m e] eqn:E.
  - right. apply leb_0_nonneg. now rewrite E.
  - right. apply leb_0_nonneg. rewrite E.
    rewrite sqrt_spec in E. unfold SF64sqrt, SFsqrt in E.
    destruct (Prim2SF x) as [sx|sx| |sx mx ex]; try discriminate.
    + destruct sx; [discriminate|]. now inversion E.
    + destruct sx; [discriminate|].
      destruct (SFsqrt_core_binary prec emax (Zpos mx) ex) as [[mz ez] lz].
      destruct (binary_round_aux_sign mz ez lz) as [En | Hn];
        rewrite E in *; [discriminate | assumption].
  - left. apply Prim2SF_inj. now rewrite E.
  - right. apply leb_0_nonneg. rewrite E.
    rewrite sqrt_spec in E. unfold SF64sqrt, SFsqrt in E.
    destruct (Prim2SF x) as [sx|sx| |sx mx ex]; try discriminate.
    + destruct sx; discriminate.
    + destruct sx; [discriminate|].
      destruct (SFsqrt_core_binary prec emax (Zpos mx) ex) as [[mz ez] lz].
      destruct (binary_round_aux_sign mz ez lz) as [En | Hn];
        rewrite E in *; [discriminate | assumption].
Qed.

Lemma Forall_map_in_closed_range (us : list double) (s : double) :
  Forall unit_interval us -> (0 <=? s)%float = true ->
  Forall (fun x => in_closed_seed_range s x = true)
         (map (fun x => (x + s)%float) us).
Proof.
  intros Hus Hs. induction Hus as [|u us Hu _ IH]; simpl; constructor.
  - now apply add_sample_in_closed_range.
  - assumption.
Qed.

Lemma Forall_map_nan (us : list double) :
  Forall (fun x => x = nan) (map (fun x => (x + nan)%float) us).
Proof.
  induction us as [|u us IH]; simpl; constructor;
    [apply add_nan_r | assumption].
Qed.

(* ------------------------------------------------------------------ *)
(** * The initializer *)

(** The mocked source stays in [0,1). *)
Lemma Cycle4_unit_interval : source_in_unit_interval phase.
Proof. intros []; split; reflexivity. Qed.

(** The example matrices are well formed. *)
Lemma examples_well_formed :
  mat_ok V_dense /\ mat_ok V_row /\ mat_ok V_no_rows /\
  sp_mat_ok V_sparse /\ sp_mat_ok V_sparse_empty.
Proof.
  unfold mat_ok, sp_mat_ok, dims_ok, SIZE_MAX; cbn.
  repeat split; try lia; repeat constructor.
Qed.

Lemma mat_ok_stored_ok (V : mat) : mat_ok V -> stored_ok V.
Proof.
  intros [Hd Hl]. split; [assumption|].
  cbn [elements n_rows n_cols MatType_mat]. lia.
Qed.

Lemma sp_mat_ok_stored_ok (V : sp_mat) : sp_mat_ok V -> stored_ok V.
Proof. intros (Hd & Hl & _). split; assumption. Qed.

(** For a sparse matrix the mean is taken over all [n * m] entries, the
    absent ones included: one stored 5 in a 3 x 3 matrix has mean 5/9. *)
Example mean_over_full_size :
  mean_of V_sparse = (5 / 9)%float /\ min_of (elements V_sparse) = 5%float.
Proof. split; reflexivity. Qed.

(** The scenario of the specification: V = [[0,2],[4,6]] and r = 2 give the
    seed sqrt(1.5). *)
Example seed_of_V_dense : seed_of V_dense 2 = sqrt 1.5%float.
Proof. reflexivity. Qed.

Section Claims.

Context {MT : Type} {MTI : MatType MT}.
Context {G : Type} {USI : UniformSource G}.

(** C1.  For every matrix V with n rows and m columns and every rank r, the
    seed that [Initialize] and [InitializeOne] add to the samples is
    [sqrt((mean - min) / r)]: [sum] and [min] are what one traversal of the
    stored elements accumulates ([min] starting from [DBL_MAX]), and
    [mean = sum / (n * m)] has the full size of the matrix as denominator,
    not the number of stored elements. *)
Theorem Initialize_seed_formula (V : MT) (r : size_t) (W H M : mat) (g : G) :
  dims_ok V ->
  Initialize V r W H g
  = Normal (mat_plus (noise (n_rows V) r g) (seed_of V r),
            mat_plus (noise r (n_cols V) (after_noise (n_rows V) r g))
                     (seed_of V r),
            after_noise r (n_cols V) (after_noise (n_rows V) r g)) /\
  (forall c, c = "W"%char \/ c = "w"%char ->
     InitializeOne V r c M g
     = Normal (mat_plus (noise (n_rows V) r g) (seed_of V r),
               after_noise (n_rows V) r g)) /\
  (forall c, c = "H"%char \/ c = "h"%char ->
     InitializeOne V r c M g
     = Normal (mat_plus (noise r (n_cols V) g) (seed_of V r),
               after_noise r (n_cols V) g)) /\
  seed_of V r
  = sqrt (((fold_left (fun acc x => acc + x) (elements V) 0
            / of_size (n_rows V * n_cols V)%Z)
           - fold_left (fun mn x => if x <? mn then x else mn)
               (elements V) DBL_MAX)
          / of_size r)%float.
Proof.
  intros Hd. rewrite <- (computed_seed_dims V r Hd).
  split; [apply Initialize_eq|].
  split; [intros c Hc; now apply InitializeOne_W_eq|].
  split; [intros c Hc; now apply InitializeOne_H_eq|].
  rewrite (computed_seed_dims V r Hd). reflexivity.
Qed.

(** C2, as the code has it.  For every V with n >= 1 rows and m >= 1
    columns, every r >= 1 and samples in [0,1), [Initialize] returns W of
    shape n x r and H of shape r x m whose entries are the double sums of a
    sample and of [seed = sqrt((mean - min) / r)], with no clamp: when the
    seed is NaN every entry is NaN, and otherwise every entry lies in the
    closed interval from [seed] to [seed + 1]. *)
Theorem Initialize_range (V : MT) (r : size_t) (W H : mat) (g : G) :
  1 <= n_rows V -> 1 <= n_cols V -> 1 <= r ->
  source_in_unit_interval G ->
  exists W' H' g',
    Initialize V r W H g = Normal (W', H', g') /\
    W' = mat_plus (noise (n_rows V) r g) (computed_seed V r) /\
    H' = mat_plus (noise r (n_cols V) (after_noise (n_rows V) r g))
                  (computed_seed V r) /\
    has_shape W' (n_rows V) r /\ has_shape H' r (n_cols V) /\
    ((computed_seed V r = nan /\
      Forall (fun x => x = nan) (mat_mem W') /\
      Forall (fun x => x = nan) (mat_mem H')) \/
     ((0 <=? computed_seed V r)%float = true /\
      Forall (fun x => in_closed_seed_range (computed_seed V r) x = true)
             (mat_mem W') /\
      Forall (fun x => in_closed_seed_range (computed_seed V r) x = true)
             (mat_mem H'))).
Proof.
  intros Hn Hm Hr Hsrc. rewrite Initialize_eq.
  eexists _, _, _. split; [reflexivity|].
  split; [reflexivity|]. split; [reflexivity|].
  split; [apply mat_plus_shape, noise_shape; lia|].
  split; [apply mat_plus_shape, noise_shape; lia|].
  unfold computed_seed.
  destruct (sqrt_nan_or_nonneg (computed_radicand V r)) as [-> | Hs].
  - left. split; [reflexivity|]. split; apply Forall_map_nan.
  - right. split; [assumption|].
    split; apply Forall_map_in_closed_range;
      auto using noise_unit_interval.
Qed.

(** C3, as the code has it.  For every V and r such that [(mean - min) / r]
    evaluates negative, nothing is clamped and no diagnostic is raised: the
    square root is NaN, the call returns normally and every entry of W and
    H is NaN. *)
Theorem negative_radicand_gives_nan (V : MT) (r : size_t) (W H : mat) (g : G) :
  (computed_radicand V r <? 0)%float = true ->
  computed_seed V r = nan /\
  exists W' H' g',
    Initialize V r W H g = Normal (W', H', g') /\
    Forall (fun x => x = nan) (mat_mem W') /\
    Forall (fun x => x = nan) (mat_mem H').
Proof.
  intros Hneg. pose proof (sqrt_negative _ Hneg) as Hs.
  split; [exact Hs|]. rewrite Initialize_eq. fold (computed_seed V r) in Hs.
  rewrite Hs. eexists _, _, _. split; [reflexivity|].
  split; apply Forall_map_nan.
Qed.

(** With no stored element and no room for one, the seed is 0/0 taken
    through the subtraction, the division and the square root: NaN. *)
Lemma computed_seed_empty (V : MT) (r : size_t) :
  elements V = [] -> size_mul (n_rows V) (n_cols V) = 0 ->
  computed_seed V r = nan.
Proof.
  intros He Hz. unfold computed_seed, computed_radicand.
  rewrite He, Hz. cbn [sum_of min_of fold_left]. rewrite of_size_0.
  change (0 / 0)%float with nan.
  now rewrite sub_nan_l, div_nan_l.
Qed.

(** C4, as the code has it.  For every call where V has a zero dimension or
    r is 0, no error is signalled: the call returns normally with W of
    shape n x r and H of shape r x m.  With a zero dimension of V the seed
    is NaN and so is every entry of W and H; with r = 0 neither has an
    entry. *)
Theorem zero_size_returns_normally (V : MT) (r : size_t) (W H : mat) (g : G) :
  stored_ok V -> 0 <= r ->
  n_rows V = 0 \/ n_cols V = 0 \/ r = 0 ->
  exists W' H' g',
    Initialize V r W H g = Normal (W', H', g') /\
    has_shape W' (n_rows V) r /\ has_shape H' r (n_cols V) /\
    (n_rows V = 0 \/ n_cols V = 0 ->
       computed_seed V r = nan /\
       Forall (fun x => x = nan) (mat_mem W') /\
       Forall (fun x => x = nan) (mat_mem H')) /\
    (r = 0 -> mat_mem W' = [] /\ mat_mem H' = []).
Proof.
  intros [(Hn & Hm & Hnm) Hlen] Hr Hz. rewrite Initialize_eq.
  eexists _, _, _. split; [reflexivity|].
  split; [apply mat_plus_shape, noise_shape; lia|].
  split; [apply mat_plus_shape, noise_shape; lia|].
  split.
  - intros Hz'.
    assert (n_rows V * n_cols V = 0) as Hnm0 by (destruct Hz'; nia).
    assert (elements V = []) as He
      by (apply length_zero_iff_nil; lia).
    assert (computed_seed V r = nan) as Hs.
    { apply computed_seed_empty; [assumption|].
      rewrite size_mul_small; [assumption | unfold SIZE_MAX; lia]. }
    split; [exact Hs|]. rewrite Hs. split; apply Forall_map_nan.
  - intros ->. unfold mat_plus, noise, randu. cbn [mat_mem].
    rewrite Z.mul_0_r, Z.mul_0_l. split; reflexivity.
Qed.

(** C5, as the code has it.  For every selector other than 'W', 'w', 'H'
    and 'h', [InitializeOne] streams its message to [Log::Fatal] and does
    nothing else: no statistic is computed, no sample is drawn, and M keeps
    its contents, so that no default matrix comes back. *)
Theorem InitializeOne_invalid_selector (V : MT) (r : size_t) (c : ascii)
  (M : mat) (g : G) :
  c <> "W"%char -> c <> "w"%char -> c <> "H"%char -> c <> "h"%char ->
  InitializeOne V r c M g
  = Fatal "Specify either 'H' or 'W' when initializing one of W and H matrices!"
          (M, g).
Proof.
  intros HW Hw HH Hh. unfold InitializeOne.
  apply Ascii.eqb_neq in HW, Hw, HH, Hh.
  rewrite HW, Hw, HH, Hh. cbn [orb]. reflexivity.
Qed.

(** C6.  For every V and r, [InitializeOne(V, r, 'W')] gives a matrix of
    the same shape n x r and with the same seed as the W of
    [Initialize(V, r)], whatever the matrices held before and wherever the
    generator stands; from the same generator state the two matrices are
    equal.  Each call computes the statistics anew from V. *)
Theorem InitializeOne_W_matches_Initialize (V : MT) (r : size_t)
  (W H M : mat) (g1 g2 : G) :
  exists W' H' g1' M' g2',
    Initialize V r W H g1 = Normal (W', H', g1') /\
    InitializeOne V r "W" M g2 = Normal (M', g2') /\
    W' = mat_plus (noise (n_rows V) r g1) (computed_seed V r) /\
    M' = mat_plus (noise (n_rows V) r g2) (computed_seed V r) /\
    (mat_n_rows W' = n_rows V /\ mat_n_cols W' = r /\
     length (mat_mem W') = Z.to_nat (n_rows V * r)) /\
    (mat_n_rows M' = n_rows V /\ mat_n_cols M' = r /\
     length (mat_mem M') = Z.to_nat (n_rows V * r)) /\
    (g1 = g2 -> M' = W').
Proof.
  rewrite Initialize_eq, InitializeOne_W_eq by (left; reflexivity).
  eexists _, _, _, _, _. split; [reflexivity|]. split; [reflexivity|].
  split; [reflexivity|]. split; [reflexivity|].
  split; [apply noise_dims|]. split; [apply noise_dims|].
  now intros ->.
Qed.

(** C7.  For every V and r, the selectors 'w' and 'W' do the same but for
    the samples drawn: the same shape n x r and the same seed, and from the
    same generator state the same outcome; likewise 'h' and 'H'. *)
Theorem InitializeOne_case_insensitive (V : MT) (r : size_t) (M1 M2 : mat)
  (g1 g2 : G) :
  (InitializeOne V r "w" M1 g1
   = Normal (mat_plus (noise (n_rows V) r g1) (computed_seed V r),
             after_noise (n_rows V) r g1) /\
   InitializeOne V r "W" M2 g2
   = Normal (mat_plus (noise (n_rows V) r g2) (computed_seed V r),
             after_noise (n_rows V) r g2) /\
   InitializeOne V r "w" M1 g1 = InitializeOne V r "W" M2 g1) /\
  (InitializeOne V r "h" M1 g1
   = Normal (mat_plus (noise r (n_cols V) g1) (computed_seed V r),
             after_noise r (n_cols V) g1) /\
   InitializeOne V r "H" M2 g2
   = Normal (mat_plus (noise r (n_cols V) g2) (computed_seed V r),
             after_noise r (n_cols V) g2) /\
   InitializeOne V r "h" M1 g1 = InitializeOne V r "H" M2 g1).
Proof.
  split.
  - rewrite !InitializeOne_W_eq by (auto; right; reflexivity).
    repeat split.
  - rewrite !InitializeOne_H_eq by (auto; right; reflexivity).
    repeat split.
Qed.

(** C8.  For every V and r, the seed is a function of V and r alone: two
    calls, whatever W and H held and wherever the generator stands, add the
    same seed to their samples; so does a second call made in the state the
    first one left, and with the generator put back to where it was the two
    calls return the same matrices.  The initializer object has no state to
    depend on. *)
Theorem seed_is_deterministic (V : MT) (r : size_t) (W1 H1 W2 H2 : mat)
  (g1 g2 : G) (a1 a2 : AverageInitialization) :
  a1 = a2 /\
  Initialize V r W1 H1 g1
  = Normal (mat_plus (noise (n_rows V) r g1) (computed_seed V r),
            mat_plus (noise r (n_cols V) (after_noise (n_rows V) r g1))
                     (computed_seed V r),
            after_noise r (n_cols V) (after_noise (n_rows V) r g1)) /\
  Initialize V r W2 H2 g2
  = Normal (mat_plus (noise (n_rows V) r g2) (computed_seed V r),
            mat_plus (noise r (n_cols V) (after_noise (n_rows V) r g2))
                     (computed_seed V r),
            after_noise r (n_cols V) (after_noise (n_rows V) r g2)) /\
  (forall W' H' g',
     Initialize V r W1 H1 g1 = Normal (W', H', g') ->
     Initialize V r W' H' g'
     = Normal (mat_plus (noise (n_rows V) r g') (computed_seed V r),
               mat_plus (noise r (n_cols V) (after_noise (n_rows V) r g'))
                        (computed_seed V r),
               after_noise r (n_cols V) (after_noise (n_rows V) r g')) /\
     Initialize V r W' H' g1 = Initialize V r W1 H1 g1).
Proof.
  split; [now destruct a1, a2|].
  split; [apply Initialize_eq|]. split; [apply Initialize_eq|].
  intros W' H' g' _. split; [apply Initialize_eq|].
  now rewrite !Initialize_eq.
Qed.

(** C9.  For every call, V is left as it was, on every path, and the W and
    H that come back hold fresh samples plus the seed in every entry: they
    do not depend on what W and H held before the call. *)
Theorem Initialize_frame (r : size_t) (c : ascii) (s : caller_state MT G)
  (W0 H0 : mat) :
  cs_V (state_of (call_Initialize r s)) = cs_V s /\
  cs_V (state_of (call_InitializeOne r c s)) = cs_V s /\
  call_Initialize r (CallerState (cs_V s) W0 H0 (cs_gen s))
  = call_Initialize r s /\
  cs_W (state_of (call_Initialize r s))
  = mat_plus (noise (n_rows (cs_V s)) r (cs_gen s))
             (computed_seed (cs_V s) r) /\
  cs_H (state_of (call_Initialize r s))
  = mat_plus (noise r (n_cols (cs_V s))
                (after_noise (n_rows (cs_V s)) r (cs_gen s)))
             (computed_seed (cs_V s) r) /\
  cs_W (state_of (call_InitializeOne r "W"
                    (CallerState (cs_V s) W0 H0 (cs_gen s))))
  = cs_W (state_of (call_InitializeOne r "W" s)) /\
  cs_H (state_of (call_InitializeOne r "H"
                    (CallerState (cs_V s) W0 H0 (cs_gen s))))
  = cs_H (state_of (call_InitializeOne r "H" s)).
Proof.
  destruct s as [V W H g]. unfold call_Initialize, call_InitializeOne.
  cbn [cs_V cs_W cs_H cs_gen].
  rewrite !Initialize_eq.
  rewrite !(InitializeOne_W_eq V r "W") by (left; reflexivity).
  rewrite !(InitializeOne_H_eq V r "H") by (left; reflexivity).
  cbn [Ascii.eqb Bool.eqb orb state_of cs_V cs_W cs_H].
  split; [reflexivity|]. split; [|repeat split].
  destruct (Ascii.eqb c "H" || Ascii.eqb c "h")%bool.
  - destruct (InitializeOne V r c H g) as [[M' g'] | msg [M' g']]; reflexivity.
  - destruct (InitializeOne V r c W g) as [[M' g'] | msg [M' g']]; reflexivity.
Qed.

End Claims.

(** C10.  For every sparse V with n >= 1 rows and m >= 1 columns and no
    stored element, the traversal visits nothing: [min] stays [DBL_MAX], the
    seed is [sqrt((0 - DBL_MAX) / r)], a NaN for every r, every entry of the
    returned W and H is NaN, and the call returns normally. *)
Theorem empty_sparse_gives_nan {G : Type} {USI : UniformSource G}
  (V : sp_mat) (r : size_t) (W H : mat) (g : G) :
  sp_values V = [] ->
  1 <= sp_n_rows V -> 1 <= sp_n_cols V ->
  sp_n_rows V * sp_n_cols V <= SIZE_MAX ->
  0 <= r <= SIZE_MAX ->
  min_of (elements V) = DBL_MAX /\
  computed_seed V r = sqrt ((0 - DBL_MAX) / of_size r)%float /\
  computed_seed V r = nan /\
  exists W' H' g',
    Initialize V r W H g = Normal (W', H', g') /\
    has_shape W' (sp_n_rows V) r /\ has_shape H' r (sp_n_cols V) /\
    Forall (fun x => x = nan) (mat_mem W') /\
    Forall (fun x => x = nan) (mat_mem H').
Proof.
  intros He Hn Hm Hnm Hr.
  assert (computed_seed V r = sqrt ((0 - DBL_MAX) / of_size r)%float) as Hs.
  { unfold computed_seed, computed_radicand. cbn [elements n_rows n_cols
      MatType_sp_mat]. rewrite He. cbn [sum_of min_of fold_left].
    rewrite size_mul_small by nia.
    rewrite zero_div_of_size by nia. reflexivity. }
  split; [cbn [elements MatType_sp_mat]; now rewrite He|].
  split; [exact Hs|].
  rewrite Hs, sqrt_neg_DBL_MAX_div by assumption.
  split; [reflexivity|].
  rewrite Initialize_eq, Hs, sqrt_neg_DBL_MAX_div by assumption.
  eexists _, _, _. split; [reflexivity|].
  split; [apply mat_plus_shape, noise_shape; cbn; lia|].
  split; [apply mat_plus_shape, noise_shape; cbn; lia|].
  split; apply Forall_map_nan.
Qed.

(* ------------------------------------------------------------------ *)
(** * The theorems at work on the example matrices *)

Lemma Initialize_seed_formula_witness :
  dims_ok V_dense /\
  Initialize V_dense 2 M_empty M_stale P0
  = Normal (mat_plus (noise 2 2 P0) (seed_of V_dense 2),
            mat_plus (noise 2 2 (after_noise 2 2 P0)) (seed_of V_dense 2),
            after_noise 2 2 (after_noise 2 2 P0)).
Proof.
  assert (dims_ok V_dense) as Hd by (unfold dims_ok, SIZE_MAX; cbn; lia).
  split; [exact Hd|].
  exact (proj1 (Initialize_seed_formula V_dense 2 M_empty M_stale M_empty P0
                  Hd)).
Defined.

Lemma Initialize_range_witness :
  (1 <= n_rows V_dense /\ 1 <= n_cols V_dense /\ 1 <= 2) /\
  exists W' H' g',
    Initialize V_dense 2 M_empty M_stale P0 = Normal (W', H', g') /\
    W' = mat_plus (noise (n_rows V_dense) 2 P0) (computed_seed V_dense 2) /\
    H' = mat_plus (noise 2 (n_cols V_dense) (after_noise (n_rows V_dense) 2 P0))
                  (computed_seed V_dense 2) /\
    has_shape W' (n_rows V_dense) 2 /\ has_shape H' 2 (n_cols V_dense) /\
    ((computed_seed V_dense 2 = nan /\
      Forall (fun x => x = nan) (mat_mem W') /\
      Forall (fun x => x = nan) (mat_mem H')) \/
     ((0 <=? computed_seed V_dense 2%Z)%float = true /\
      Forall (fun x => in_closed_seed_range (computed_seed V_dense 2) x = true)
             (mat_mem W') /\
      Forall (fun x => in_closed_seed_range (computed_seed V_dense 2) x = true)
             (mat_mem H'))).
Proof.
  assert (1 <= n_rows V_dense /\ 1 <= n_cols V_dense /\ 1 <= 2)
    as (Hn & Hm & Hr) by (cbn; lia).
  split; [repeat split; assumption|].
  apply (Initialize_range V_dense 2 M_empty M_stale P0 Hn Hm Hr).
  intros []; split; reflexivity.
Defined.

Lemma negative_radicand_gives_nan_witness :
  (computed_radicand V_sparse 1%Z <? 0)%float = true /\
  computed_seed V_sparse 1 = nan /\
  exists W' H' g',
    Initialize V_sparse 1 M_empty M_stale P0 = Normal (W', H', g') /\
    Forall (fun x => x = nan) (mat_mem W') /\
    Forall (fun x => x = nan) (mat_mem H').
Proof.
  assert ((computed_radicand V_sparse 1%Z <? 0)%float = true) as Hneg
    by reflexivity.
  split; [exact Hneg|].
  exact (negative_radicand_gives_nan V_sparse 1 M_empty M_stale P0 Hneg).
Defined.

Lemma zero_size_returns_normally_witness :
  stored_ok V_no_rows /\
  exists W' H' g',
    Initialize V_no_rows 1 M_empty M_stale P0 = Normal (W', H', g') /\
    has_shape W' (n_rows V_no_rows) 1 /\ has_shape H' 1 (n_cols V_no_rows) /\
    (n_rows V_no_rows = 0 \/ n_cols V_no_rows = 0 ->
       computed_seed V_no_rows 1 = nan /\
       Forall (fun x => x = nan) (mat_mem W') /\
       Forall (fun x => x = nan) (mat_mem H')) /\
    (1 = 0 -> mat_mem W' = [] /\ mat_mem H' = []).
Proof.
  assert (stored_ok V_no_rows) as Hok
    by (unfold stored_ok, dims_ok, SIZE_MAX; cbn; lia).
  split; [exact Hok|].
  apply (zero_size_returns_normally V_no_rows 1 M_empty M_stale P0 Hok);
    [lia | left; reflexivity].
Defined.

Lemma InitializeOne_invalid_selector_witness :
  InitializeOne V_row 1 "X" M_stale P0
  = Fatal "Specify either 'H' or 'W' when initializing one of W and H matrices!"
          (M_stale, P0).
Proof.
  apply (InitializeOne_invalid_selector V_row 1 "X" M_stale P0);
    discriminate.
Defined.

Lemma empty_sparse_gives_nan_witness :
  sp_values V_sparse_empty = [] /\
  computed_seed V_sparse_empty 2 = nan /\
  exists W' H' g',
    Initialize V_sparse_empty 2 M_empty M_stale P0 = Normal (W', H', g') /\
    has_shape W' 3 2 /\ has_shape H' 2 3 /\
    Forall (fun x => x = nan) (mat_mem W') /\
    Forall (fun x => x = nan) (mat_mem H').
Proof.
  split; [reflexivity|].
  refine (proj2 (proj2 (empty_sparse_gives_nan V_sparse_empty 2 M_empty
                          M_stale P0 eq_refl _ _ _ _)));
    unfold SIZE_MAX; cbn; lia.
Defined.

(* ------------------------------------------------------------------ *)
(** * Where the code departs from the specification's policies *)

(** C2 as the specification states it fails twice.  On the sparse 3 x 3
    matrix with one stored 5 and r = 1 the radicand is negative, nothing is
    clamped, and the entries are NaN.  On the dense [[0,2]] and r = 1 the
    seed is 1 and the sample 1 - 2^-53 gives the entry 2 = seed + 1. *)
Lemma Initialize_range_counterexample :
  source_in_unit_interval phase /\
  Initialize V_sparse 1 M_empty M_stale P0
  = Normal (Mat 3 1 [nan; nan; nan], Mat 1 3 [nan; nan; nan], P2) /\
  ~ spec_range_policy V_sparse 1 M_empty M_stale P0 /\
  Initialize V_row 1 M_empty M_stale P0
  = Normal (Mat 1 1 [1.5%float], Mat 1 2 [2%float; 1%float], P3) /\
  clamped_seed_of V_row 1 = 1%float /\
  ~ spec_range_policy V_row 1 M_empty M_stale P0.
Proof.
  split; [intros []; split; reflexivity|].
  split; [reflexivity|].
  split; [intros (_ & _ & Hw & _); vm_compute in Hw; discriminate|].
  split; [reflexivity|]. split; [reflexivity|].
  intros (_ & _ & _ & Hh); vm_compute in Hh; discriminate.
Qed.

(** C3 as the specification states it fails on the sparse 3 x 3 matrix with
    one stored 5 and r = 1: mean = 5/9, min = 5, the radicand is negative;
    the clamped seed would be 0, the computed one is NaN and so is every
    entry. *)
Lemma negative_radicand_counterexample :
  (computed_radicand V_sparse 1%Z <? 0)%float = true /\
  clamped_seed_of V_sparse 1 = 0%float /\
  computed_seed V_sparse 1 = nan /\
  Initialize V_sparse 1 M_empty M_stale P0
  = Normal (Mat 3 1 [nan; nan; nan], Mat 1 3 [nan; nan; nan], P2) /\
  ~ spec_clamp_policy V_sparse 1 M_empty M_stale P0.
Proof.
  repeat (split; [reflexivity|]).
  intros Hc. specialize (Hc eq_refl). vm_compute in Hc.
  destruct Hc as [Hw _]. discriminate.
Qed.

(** C4 as the specification states it fails on a matrix with no row (H
    comes back filled with NaN) and on r = 0 (two empty matrices come
    back): both calls return normally. *)
Lemma zero_size_counterexample :
  Initialize V_no_rows 1 M_empty M_stale P0
  = Normal (Mat 0 1 [], Mat 1 2 [nan; nan], P2) /\
  Initialize V_row 0 M_empty M_stale P0
  = Normal (Mat 1 0 [], Mat 0 2 [], P0) /\
  ~ spec_rejects_empty_input V_no_rows 1 M_empty M_stale P0 /\
  ~ spec_rejects_empty_input V_row 0 M_empty M_stale P0.
Proof.
  repeat (split; [reflexivity|]). split.
  - intros Hc. exact (Hc (or_introl eq_refl)).
  - intros Hc. exact (Hc (or_intror (or_intror eq_refl))).
Qed.

(** C5 as the specification states it fails on the selector 'X': the call
    ends in the fatal log. *)
Lemma invalid_selector_counterexample :
  InitializeOne V_row 1 "X" M_stale P0
  = Fatal "Specify either 'H' or 'W' when initializing one of W and H matrices!"
          (M_stale, P0) /\
  ~ spec_recoverable_selector V_row 1 "X" M_stale P0.
Proof.
  split; [reflexivity|].
  intros Hc. unfold spec_recoverable_selector in Hc.
  assert (is_fatal (InitializeOne V_row 1 "X" M_stale P0) = false) as Hf
    by (apply Hc; discriminate).
  discriminate Hf.
Qed.

(* ------------------------------------------------------------------ *)
(** * Further properties of the two entry points *)

(** ** The order of doubles *)

Lemma signed_units_nonneg (x : spec_float) :
  nonneg_sf x = true -> signed_units x = units x.
Proof.
  destruct x as [s|s| |s m e]; cbn [nonneg_sf signed_units units];
    try reflexivity; intros Hs; apply negb_true_iff in Hs; now subst s.
Qed.

(** The comparison of two negative numbers is the comparison of their
    absolute values, turned around. *)
Lemma SFcompare_neg_finite (m1 m2 : positive) (e1 e2 : Z) :
  SFcompare (S754_finite true m1 e1) (S754_finite true m2 e2)
  = option_map CompOpp
      (SFcompare (S754_finite false m1 e1) (S754_finite false m2 e2)).
Proof.
  cbn [SFcompare option_map]. now destruct (e1 ?= e2).
Qed.

(** On valid doubles other than NaN the comparison of [SpecFloat] is the
    comparison of the signed whole numbers. *)
Ltac decide_compare :=
  f_equal; symmetry;
  first [ apply Z.compare_eq_iff; lia
        | apply Z.compare_lt_iff; lia
        | apply Z.compare_gt_iff; lia ].

Lemma SFcompare_signed_units (x y : spec_float) :
  valid_binary x = true -> valid_binary y = true ->
  x <> S754_nan -> y <> S754_nan ->
  SFcompare x y = Some (signed_units x ?= signed_units y).
Proof.
  intros Vx Vy Nx Ny.
  assert (0 < INF_units) as HI by reflexivity.
  destruct x as [sx|sx| |sx mx ex]; try congruence;
    destruct y as [sy|sy| |sy my ey]; try congruence.
  - reflexivity.
  - destruct sy; cbn [SFcompare signed_units]; decide_compare.
  - pose proof (units_finite_lt_INF sy my ey Vy) as [Hp _].
    cbn [units] in Hp.
    destruct sy; cbn [SFcompare signed_units]; decide_compare.
  - destruct sx; cbn [SFcompare signed_units]; decide_compare.
  - destruct sx, sy; cbn [SFcompare signed_units]; decide_compare.
  - pose proof (units_finite_lt_INF sy my ey Vy) as [Hp Hl].
    cbn [units] in Hp, Hl.
    destruct sx, sy; cbn [SFcompare signed_units]; decide_compare.
  - pose proof (units_finite_lt_INF sx mx ex Vx) as [Hp _].
    cbn [units] in Hp.
    destruct sx; cbn [SFcompare signed_units]; decide_compare.
  - pose proof (units_finite_lt_INF sx mx ex Vx) as [Hp Hl].
    cbn [units] in Hp, Hl.
    destruct sx, sy; cbn [SFcompare signed_units]; decide_compare.
  - pose proof (units_finite_lt_INF sx mx ex Vx) as [Hpx _].
    pose proof (units_finite_lt_INF sy my ey Vy) as [Hpy _].
    cbn [units] in Hpx, Hpy.
    assert (SFcompare (S754_finite false mx ex) (S754_finite false my ey)
            = Some (Zpos mx * 2 ^ (ex + 1074) ?= Zpos my * 2 ^ (ey + 1074)))
      as Hpos by (apply (SFcompare_units (S754_finite false mx ex)
                           (S754_finite false my ey)); auto).
    destruct sx, sy.
    + rewrite SFcompare_neg_finite, Hpos. cbn [option_map signed_units].
      f_equal. rewrite Z.compare_opp. symmetry. apply Z.compare_antisym.
    + cbn [SFcompare signed_units]. decide_compare.
    + cbn [SFcompare signed_units]. decide_compare.
    + exact Hpos.
Qed.

Lemma ltb_true_not_nan (x y : float) :
  (x <? y)%float = true -> x <> nan /\ y <> nan.
Proof.
  rewrite ltb_spec. unfold SFltb. intros Hlt.
  split; intros ->; rewrite Prim2SF_nan in Hlt;
    [discriminate | now destruct (Prim2SF x)].
Qed.

Lemma not_nan_Prim2SF (x : float) : x <> nan -> Prim2SF x <> S754_nan.
Proof.
  intros Hx E. apply Hx. apply Prim2SF_inj. now rewrite E.
Qed.

Lemma ltb_signed_units (x y : float) :
  x <> nan -> y <> nan ->
  (x <? y)%float = true
  <-> signed_units (Prim2SF x) < signed_units (Prim2SF y).
Proof.
  intros Nx Ny. rewrite ltb_spec. unfold SFltb.
  rewrite (SFcompare_signed_units _ _ (Prim2SF_valid x) (Prim2SF_valid y)
             (not_nan_Prim2SF x Nx) (not_nan_Prim2SF y Ny)).
  destruct (Z.compare_spec (signed_units (Prim2SF x))
              (signed_units (Prim2SF y)));
    split; intros; try reflexivity; try discriminate; lia.
Qed.

Lemma leb_signed_units (x y : float) :
  x <> nan -> y <> nan ->
  (x <=? y)%float = true
  <-> signed_units (Prim2SF x) <= signed_units (Prim2SF y).
Proof.
  intros Nx Ny. rewrite leb_spec. unfold SFleb.
  rewrite (SFcompare_signed_units _ _ (Prim2SF_valid x) (Prim2SF_valid y)
             (not_nan_Prim2SF x Nx) (not_nan_Prim2SF y Ny)).
  destruct (Z.compare_spec (signed_units (Prim2SF x))
              (signed_units (Prim2SF y)));
    split; intros; try reflexivity; try discriminate; lia.
Qed.

Lemma ltb_irrefl (x : float) : (x <? x)%float = false.
Proof.
  destruct (x <? x)%float eqn:E; [|reflexivity].
  destruct (ltb_true_not_nan x x E) as [Nx _].
  apply (ltb_signed_units x x Nx Nx) in E. lia.
Qed.

Lemma ltb_trans (x y z : float) :
  (x <? y)%float = true -> (y <? z)%float = true -> (x <? z)%float = true.
Proof.
  intros Hxy Hyz.
  destruct (ltb_true_not_nan x y Hxy) as [Nx Ny].
  destruct (ltb_true_not_nan y z Hyz) as [_ Nz].
  apply (ltb_signed_units x y Nx Ny) in Hxy.
  apply (ltb_signed_units y z Ny Nz) in Hyz.
  apply (ltb_signed_units x z Nx Nz). lia.
Qed.

(** Of two numbers, the one that is not below the other is above it or
    equal to it. *)
Lemma not_ltb_leb (x y : float) :
  x <> nan -> y <> nan -> (x <? y)%float = false -> (y <=? x)%float = true.
Proof.
  intros Nx Ny Hxy. apply (leb_signed_units y x Ny Nx).
  destruct (Z.le_gt_cases (signed_units (Prim2SF y))
              (signed_units (Prim2SF x))) as [|Hlt]; [assumption|].
  apply (ltb_signed_units x y Nx Ny) in Hlt. congruence.
Qed.

(** ** The minimum the loop tracks *)

Lemma min_fold_invariant (xs : list double) (mn : double) :
  mn <> nan ->
  fold_left (fun mn x => if (x <? mn)%float then x else mn) xs mn <> nan /\
  (fold_left (fun mn x => if (x <? mn)%float then x else mn) xs mn = mn \/
   In (fold_left (fun mn x => if (x <? mn)%float then x else mn) xs mn) xs) /\
  (forall z, (z <? mn)%float = false ->
     (z <? fold_left (fun mn x => if (x <? mn)%float then x else mn) xs mn)%float
     = false) /\
  (forall x, In x xs ->
     (x <? fold_left (fun mn x => if (x <? mn)%float then x else mn) xs mn)%float
     = false).
Proof.
  revert mn. induction xs as [|x xs IH]; intros mn Hmn.
  - cbn [fold_left In]. repeat split; auto. intros x [].
  - set (f := fun mn x : float => if (x <? mn)%float then x else mn) in *.
    set (mn1 := if (x <? mn)%float then x else mn).
    change (fold_left f (x :: xs) mn) with (fold_left f xs mn1).
    assert (mn1 <> nan) as Hmn1.
    { subst mn1. destruct (x <? mn)%float eqn:E; [|assumption].
      now destruct (ltb_true_not_nan x mn E). }
    assert (forall z, (z <? mn)%float = false -> (z <? mn1)%float = false)
      as Hanti.
    { intros z Hz. subst mn1. destruct (x <? mn)%float eqn:E; [|assumption].
      destruct (z <? x)%float eqn:Ezx; [|reflexivity].
      rewrite (ltb_trans z x mn Ezx E) in Hz. discriminate. }
    assert ((x <? mn1)%float = false) as Hx.
    { subst mn1. destruct (x <? mn)%float eqn:E;
        [apply ltb_irrefl | assumption]. }
    destruct (IH mn1 Hmn1) as (Hnan & Hmem & Hlow & Hall).
    split; [assumption|]. split; [|split].
    + destruct Hmem as [-> | Hin]; [|right; now right].
      subst mn1. destruct (x <? mn)%float; [right; now left | now left].
    + intros z Hz. apply Hlow, Hanti, Hz.
    + intros y [<- | Hy]; [apply Hlow, Hx | apply Hall, Hy].
Qed.

(** The minimum of lines 57-65 is never NaN, whatever V holds: it is
    [DBL_MAX] or one of the elements visited, it is not above [DBL_MAX], no
    element is below it, and it is below or equal to every element that is
    a number. *)
Theorem loop_min_is_lower_bound (xs : list double) :
  let st :=
    fold_left
      (fun (st : stats) (it : double) =>
         let count := size_incr (count st) in
         let avgV := (avgV st + it)%float in
         let min := if (it <? min st)%float then it else min st in
         Stats avgV count min)
      xs (Stats 0%float 0 DBL_MAX) in
  min st <> nan /\
  (min st = DBL_MAX \/ In (min st) xs) /\
  (min st <=? DBL_MAX)%float = true /\
  (forall x, In x xs -> (x <? min st)%float = false) /\
  (forall x, In x xs -> x <> nan -> (min st <=? x)%float = true).
Proof.
  cbv zeta. rewrite loop_stats. cbn [min]. unfold min_of.
  assert (DBL_MAX <> nan) as HD by discriminate.
  destruct (min_fold_invariant xs DBL_MAX HD) as (Hnan & Hmem & Hlow & Hall).
  split; [assumption|]. split; [assumption|]. split; [|split].
  - apply not_ltb_leb; try assumption. apply Hlow, ltb_irrefl.
  - exact Hall.
  - intros x Hx Nx. apply not_ltb_leb; auto.
Qed.

(** ** NaN in, NaN out *)

Lemma add_nan_l (x : float) : (nan + x)%float = nan.
Proof. apply Prim2SF_inj. now rewrite add_spec, Prim2SF_nan. Qed.

Lemma sum_fold_nan (xs : list double) :
  fold_left (fun acc x => (acc + x)%float) xs nan = nan.
Proof.
  induction xs as [|x xs IH]; cbn [fold_left]; [reflexivity|].
  now rewrite add_nan_l.
Qed.

Lemma sum_fold_nan_element (xs : list double) (acc : double) :
  In nan xs -> fold_left (fun acc x => (acc + x)%float) xs acc = nan.
Proof.
  revert acc. induction xs as [|x xs IH]; intros acc Hin; [destruct Hin|].
  cbn [fold_left]. destruct Hin as [-> | Hin].
  - rewrite add_nan_r. apply sum_fold_nan.
  - now apply IH.
Qed.

Section Further.

Context {MT : Type} {MTI : MatType MT}.
Context {G : Type} {USI : UniformSource G}.

(** A NaN among the elements of V is not skipped by the sum, though the
    minimum skips it: the seed is NaN, and every entry of W and H with it,
    and the call returns normally. *)
Theorem nan_element_gives_nan (V : MT) (r : size_t) (W H : mat) (g : G) :
  In nan (elements V) ->
  computed_seed V r = nan /\
  exists W' H' g',
    Initialize V r W H g = Normal (W', H', g') /\
    Forall (fun x => x = nan) (mat_mem W') /\
    Forall (fun x => x = nan) (mat_mem H').
Proof.
  intros Hin.
  assert (computed_seed V r = nan) as Hs.
  { unfold computed_seed, computed_radicand, sum_of.
    rewrite (sum_fold_nan_element _ _ Hin).
    now rewrite div_nan_l, sub_nan_l, div_nan_l. }
  split; [exact Hs|]. rewrite Initialize_eq, Hs.
  eexists _, _, _. split; [reflexivity|]. split; apply Forall_map_nan.
Qed.

End Further.

(** ** The samples a call consumes *)

Lemma draw_app {G : Type} {USI : UniformSource G} (a b : nat) (g : G) :
  draw (a + b) g
  = (fst (draw a g) ++ fst (draw b (snd (draw a g))),
     snd (draw b (snd (draw a g)))).
Proof.
  revert g. induction a as [|a IH]; intros g.
  - cbn [Nat.add draw fst snd app]. now destruct (draw b g).
  - cbn [Nat.add draw]. destruct (next_uniform g) as [u g1].
    rewrite IH. destruct (draw a g1) as [us g2]. cbn [fst snd].
    reflexivity.
Qed.

(** ** When the square root is a number *)

Lemma shr_m_nonneg (mrs : shr_record) (e n : Z) :
  0 <= shr_m mrs -> 0 <= shr_m (fst (shr mrs e n)).
Proof.
  intros Hm. destruct (Z.ltb_spec 0 n) as [Hn | Hn].
  - destruct mrs as [m r s]. cbn [shr_m] in Hm.
    rewrite shr_shift by assumption. cbn [fst shr_m].
    apply Z.div_pos; [assumption | apply Z.pow_pos_nonneg; lia].
  - now rewrite shr_stay by assumption.
Qed.

Lemma shr_fexp_nonneg (m e : Z) (l : location) :
  0 <= m -> 0 <= shr_m (fst (shr_fexp prec emax m e l)).
Proof.
  intros Hm. unfold shr_fexp. apply shr_m_nonneg.
  now rewrite shr_record_of_loc_m.
Qed.

Lemma binary_round_aux_not_nan (s : bool) (m e : Z) (l : location) :
  0 <= m -> binary_round_aux prec emax s m e l <> S754_nan.
Proof.
  intros Hm. unfold binary_round_aux.
  pose proof (shr_fexp_nonneg m e l Hm) as H1.
  destruct (shr_fexp prec emax m e l) as [mrs' e']. cbn [fst] in H1.
  assert (0 <= round_nearest_even (shr_m mrs') (loc_of_shr_record mrs'))
    as H2 by (destruct (round_nearest_even_cases (shr_m mrs')
                          (loc_of_shr_record mrs')) as [-> | ->]; lia).
  pose proof (shr_fexp_nonneg _ e' loc_Exact H2) as H3.
  destruct (shr_fexp prec emax _ e' loc_Exact) as [mrs'' e''].
  cbn [fst] in H3.
  destruct (shr_m mrs'') as [|p|p]; try lia; try discriminate.
  destruct (e'' <=? emax - prec); discriminate.
Qed.

(** The square root of a number that is not negative is a number. *)
Lemma sqrt_not_nan (x : float) : (0 <=? x)%float = true -> sqrt x <> nan.
Proof.
  intros Hx. apply leb_0_nonneg in Hx.
  intros E. apply (f_equal Prim2SF) in E.
  rewrite sqrt_spec, Prim2SF_nan in E. unfold SF64sqrt, SFsqrt in E.
  destruct (Prim2SF x) as [s|s| |s m e]; cbn [nonneg_sf] in Hx;
    try discriminate.
  - apply negb_true_iff in Hx. subst s. discriminate.
  - apply negb_true_iff in Hx. subst s.
    unfold SFsqrt_core_binary in E.
    set (m' := match e - 2 * _ with
               | 0 => Zpos m | Zpos _ => Z.shiftl (Zpos m) _ | Zneg _ => 0
               end) in E.
    assert (0 <= m') as Hm'.
    { subst m'. destruct (e - 2 * _); try lia.
      apply Z.shiftl_nonneg. lia. }
    pose proof (Z.sqrtrem_spec m' Hm') as Hs.
    destruct (Z.sqrtrem m') as [q r]. destruct Hs as [_ Hr].
    revert E. apply binary_round_aux_not_nan. lia.
Qed.

Section Further2.

Context {MT : Type} {MTI : MatType MT}.
Context {G : Type} {USI : UniformSource G}.

(** The seed is NaN exactly when the quantity under the square root,
    [(mean - min) / r] as line 67 computes it, is NaN or negative; in every
    other case, the infinity included, it is a number that is not
    negative. *)
Theorem seed_nan_iff (V : MT) (r : size_t) :
  (computed_seed V r = nan <->
   computed_radicand V r = nan \/ (computed_radicand V r <? 0)%float = true) /\
  (computed_seed V r <> nan -> (0 <=? computed_seed V r)%float = true).
Proof.
  unfold computed_seed. split; [split|].
  - intros Hs.
    destruct (Bool.bool_dec (is_nan (computed_radicand V r)) true) as [Hn|Hn].
    + left. now apply is_nan_eq.
    + right. destruct (computed_radicand V r <? 0)%float eqn:E;
        [reflexivity|].
      exfalso. revert Hs. apply sqrt_not_nan.
      apply not_ltb_leb; [| discriminate | assumption].
      intros Hx. apply Hn. now apply is_nan_eq.
  - intros [-> | Hneg]; [reflexivity | now apply sqrt_negative].
  - intros Hs. destruct (sqrt_nan_or_nonneg (computed_radicand V r));
      [contradiction | assumption].
Qed.

(** [InitializeOne] with 'W' and then with 'H' does what [Initialize] does:
    the same W, the same H and the same state of the generator. *)
Theorem InitializeOne_twice_is_Initialize (V : MT) (r : size_t) (W H : mat)
  (g : G) :
  exists W' g1 H' g2,
    InitializeOne V r "W" W g = Normal (W', g1) /\
    InitializeOne V r "H" H g1 = Normal (H', g2) /\
    Initialize V r W H g = Normal (W', H', g2).
Proof.
  rewrite Initialize_eq.
  rewrite (InitializeOne_W_eq V r "W" W g) by (left; reflexivity).
  eexists _, _, _, _. split; [reflexivity|].
  rewrite (InitializeOne_H_eq V r "H" H) by (left; reflexivity).
  split; reflexivity.
Qed.

(** [Initialize] takes exactly [n * r + r * m] samples from the generator:
    the first [n * r] fill W in storage order, the next [r * m] fill H, and
    the seed is added to each. *)
Theorem Initialize_sample_stream (V : MT) (r : size_t) (W H : mat) (g : G) :
  let k1 := Z.to_nat (n_rows V * r) in
  let k2 := Z.to_nat (r * n_cols V) in
  let us := fst (draw (k1 + k2) g) in
  length us = (k1 + k2)%nat /\
  Initialize V r W H g
  = Normal (Mat (n_rows V) r
              (map (fun u => (u + computed_seed V r)%float) (firstn k1 us)),
            Mat r (n_cols V)
              (map (fun u => (u + computed_seed V r)%float) (skipn k1 us)),
            snd (draw (k1 + k2) g)).
Proof.
  cbv zeta. split; [apply draw_length|].
  rewrite Initialize_eq, draw_app. cbn [fst snd].
  unfold mat_plus, noise, after_noise, randu.
  pose proof (draw_length (Z.to_nat (n_rows V * r)) g) as L1.
  destruct (draw (Z.to_nat (n_rows V * r)) g) as [us1 g1].
  cbn [fst snd] in *.
  destruct (draw (Z.to_nat (r * n_cols V)) g1) as [us2 g2].
  cbn [fst snd mat_n_rows mat_n_cols mat_mem].
  rewrite <- L1 at 1. rewrite firstn_app, Nat.sub_diag, firstn_all.
  cbn [firstn]. rewrite app_nil_r.
  rewrite <- L1 at 1. rewrite skipn_app, Nat.sub_diag, skipn_all.
  reflexivity.
Qed.

(** With samples in [0,1), no entry of W or H is negative: every entry is
    NaN or a number above or equal to zero, whatever V and r are. *)
Theorem Initialize_never_negative (V : MT) (r : size_t) (W H : mat) (g : G) :
  source_in_unit_interval G ->
  exists W' H' g',
    Initialize V r W H g = Normal (W', H', g') /\
    Forall (fun x => x = nan \/ (0 <=? x)%float = true) (mat_mem W') /\
    Forall (fun x => x = nan \/ (0 <=? x)%float = true) (mat_mem H').
Proof.
  intros Hsrc. rewrite Initialize_eq. eexists _, _, _.
  split; [reflexivity|].
  assert (forall rows cols g0,
            Forall (fun x => x = nan \/ (0 <=? x)%float = true)
              (mat_mem (mat_plus (noise rows cols g0) (computed_seed V r))))
    as Hall.
  { intros rows cols g0. unfold mat_plus; cbn [mat_mem].
    pose proof (noise_unit_interval rows cols g0 Hsrc) as Hus.
    unfold computed_seed.
    destruct (sqrt_nan_or_nonneg (computed_radicand V r)) as [-> | Hs].
    - induction Hus as [|u us Hu _ IH]; cbn [map]; constructor;
        [left; apply add_nan_r | assumption].
    - induction Hus as [|u us [Hu0 Hu1] _ IH]; cbn [map]; constructor;
        [|assumption].
      right. apply leb_0_nonneg. apply leb_0_nonneg in Hu0, Hs.
      now destruct (add_units u _ Hu0 Hs). }
  split; apply Hall.
Qed.

(** With a selector among 'W', 'w', 'H', 'h' and samples in [0,1),
    [InitializeOne] returns normally a matrix of the shape asked for, n x r
    or r x m, whose entries are all NaN when the seed is NaN and all
    between [seed] and [seed + 1], both included, when it is not. *)
Theorem InitializeOne_range (V : MT) (r : size_t) (c : ascii) (M : mat)
  (g : G) :
  source_in_unit_interval G ->
  c = "W"%char \/ c = "w"%char \/ c = "H"%char \/ c = "h"%char ->
  exists M' g',
    InitializeOne V r c M g = Normal (M', g') /\
    (if (Ascii.eqb c "W" || Ascii.eqb c "w")%bool
     then mat_n_rows M' = n_rows V /\ mat_n_cols M' = r /\
          length (mat_mem M') = Z.to_nat (n_rows V * r)
     else mat_n_rows M' = r /\ mat_n_cols M' = n_cols V /\
          length (mat_mem M') = Z.to_nat (r * n_cols V)) /\
    ((computed_seed V r = nan /\ Forall (fun x => x = nan) (mat_mem M')) \/
     (computed_seed V r <> nan /\
      Forall (fun x => in_closed_seed_range (computed_seed V r) x = true)
             (mat_mem M'))).
Proof.
  intros Hsrc Hc.
  assert (forall rows cols,
    (computed_seed V r = nan /\
     Forall (fun x => x = nan)
       (mat_mem (mat_plus (noise rows cols g) (computed_seed V r)))) \/
    (computed_seed V r <> nan /\
     Forall (fun x => in_closed_seed_range (computed_seed V r) x = true)
       (mat_mem (mat_plus (noise rows cols g) (computed_seed V r)))))
    as Hrange.
  { intros rows cols. unfold computed_seed.
    destruct (sqrt_nan_or_nonneg (computed_radicand V r)) as [E | Hs].
    - left. rewrite E. split; [reflexivity | apply Forall_map_nan].
    - right. split.
      + intros E. rewrite E in Hs. discriminate.
      + apply Forall_map_in_closed_range;
          auto using noise_unit_interval. }
  destruct Hc as [Hc | [Hc | [Hc | Hc]]]; subst c.
  - rewrite InitializeOne_W_eq by (left; reflexivity).
    eexists _, _. split; [reflexivity|].
    split; [apply noise_dims | apply Hrange].
  - rewrite InitializeOne_W_eq by (right; reflexivity).
    eexists _, _. split; [reflexivity|].
    split; [apply noise_dims | apply Hrange].
  - rewrite InitializeOne_H_eq by (left; reflexivity).
    eexists _, _. split; [reflexivity|].
    split; [apply noise_dims | apply Hrange].
  - rewrite InitializeOne_H_eq by (right; reflexivity).
    eexists _, _. split; [reflexivity|].
    split; [apply noise_dims | apply Hrange].
Qed.

(** [InitializeOne] ends in [Log::Fatal] for the selectors other than 'W',
    'w', 'H' and 'h', and for no other; when it does, the matrix and the
    generator are as they were. *)
Theorem InitializeOne_fatal_iff (V : MT) (r : size_t) (c : ascii) (M : mat)
  (g : G) :
  (is_fatal (InitializeOne V r c M g) = true <->
   c <> "W"%char /\ c <> "w"%char /\ c <> "H"%char /\ c <> "h"%char) /\
  (is_fatal (InitializeOne V r c M g) = true ->
   state_of (InitializeOne V r c M g) = (M, g)).
Proof.
  unfold InitializeOne.
  destruct (Ascii.eqb_spec c "W") as [-> | NW].
  { cbn [orb]. destruct (randu M (n_rows V) r g).
    cbn [is_fatal]. split; [split; [discriminate | intros [E _]; congruence]
                           | discriminate]. }
  destruct (Ascii.eqb_spec c "w") as [-> | Nw].
  { cbn [orb]. destruct (randu M (n_rows V) r g).
    cbn [is_fatal]. split; [split; [discriminate
                                   | intros (_ & E & _); congruence]
                           | discriminate]. }
  destruct (Ascii.eqb_spec c "H") as [-> | NH].
  { cbn [orb]. destruct (randu M r (n_cols V) g).
    cbn [is_fatal]. split; [split; [discriminate
                                   | intros (_ & _ & E & _); congruence]
                           | discriminate]. }
  destruct (Ascii.eqb_spec c "h") as [-> | Nh].
  { cbn [orb]. destruct (randu M r (n_cols V) g).
    cbn [is_fatal]. split; [split; [discriminate
                                   | intros (_ & _ & _ & E); congruence]
                           | discriminate]. }
  cbn [orb is_fatal state_of]. repeat split; auto.
Qed.

End Further2.

(** ** Overflow *)

Lemma add_infinity_r (u : float) :
  (0 <=? u)%float = true -> (u + infinity)%float = infinity.
Proof.
  intros Hu. apply leb_0_nonneg in Hu. apply Prim2SF_inj.
  rewrite add_spec. change (Prim2SF infinity) with (S754_infinity false).
  destruct (Prim2SF u) as [s|s| |s m e]; cbn [nonneg_sf] in Hu;
    try discriminate; try reflexivity.
  apply negb_true_iff in Hu. now subst s.
Qed.

(** When [(mean - min) / r] overflows to the infinity, so do the seed and
    every entry of W and H; the call returns normally. *)
Theorem infinite_radicand_gives_infinity {MT : Type} {MTI : MatType MT}
  {G : Type} {USI : UniformSource G}
  (V : MT) (r : size_t) (W H : mat) (g : G) :
  source_in_unit_interval G ->
  computed_radicand V r = infinity ->
  computed_seed V r = infinity /\
  exists W' H' g',
    Initialize V r W H g = Normal (W', H', g') /\
    Forall (fun x => x = infinity) (mat_mem W') /\
    Forall (fun x => x = infinity) (mat_mem H').
Proof.
  intros Hsrc Hinf.
  assert (computed_seed V r = infinity) as Hs
    by (unfold computed_seed; now rewrite Hinf).
  split; [exact Hs|]. rewrite Initialize_eq, Hs.
  eexists _, _, _. split; [reflexivity|].
  assert (forall rows cols g0,
            Forall (fun x => x = infinity)
              (mat_mem (mat_plus (noise rows cols g0) infinity))) as Hall.
  { intros rows cols g0. unfold mat_plus; cbn [mat_mem].
    pose proof (noise_unit_interval rows cols g0 Hsrc) as Hus.
    induction Hus as [|u us [Hu0 _] _ IH]; cbn [map]; constructor;
      [now apply add_infinity_r | assumption]. }
  split; apply Hall.
Qed.

(** ** The further properties at work on the example matrices *)

(** A dense matrix can reach the NaN seed as well: the mean of three
    entries 0.7, as the doubles compute it, falls below 0.7. *)
Example dense_constant_gives_nan :
  mat_ok V_constant /\
  (computed_radicand V_constant 1%Z <? 0)%float = true /\
  Initialize V_constant 1 M_empty M_stale P0
  = Normal (Mat 1 1 [nan], Mat 1 3 [nan; nan; nan], P0).
Proof.
  split; [unfold mat_ok, dims_ok, SIZE_MAX; cbn; lia|].
  split; reflexivity.
Qed.

Lemma nan_element_gives_nan_witness :
  In nan (elements V_nan) /\
  computed_seed V_nan 1 = nan /\
  exists W' H' g',
    Initialize V_nan 1 M_empty M_stale P0 = Normal (W', H', g') /\
    Forall (fun x => x = nan) (mat_mem W') /\
    Forall (fun x => x = nan) (mat_mem H').
Proof.
  assert (In nan (elements V_nan)) as Hin by (right; left; reflexivity).
  split; [exact Hin|].
  exact (nan_element_gives_nan V_nan 1 M_empty M_stale P0 Hin).
Defined.

Lemma Initialize_never_negative_witness :
  exists W' H' g',
    Initialize V_dense 2 M_empty M_stale P0 = Normal (W', H', g') /\
    Forall (fun x => x = nan \/ (0 <=? x)%float = true) (mat_mem W') /\
    Forall (fun x => x = nan \/ (0 <=? x)%float = true) (mat_mem H').
Proof.
  apply (Initialize_never_negative V_dense 2 M_empty M_stale P0).
  intros []; split; reflexivity.
Defined.

Lemma InitializeOne_range_witness :
  exists M' g',
    InitializeOne V_dense 2 "h" M_stale P0 = Normal (M', g') /\
    (mat_n_rows M' = 2 /\ mat_n_cols M' = n_cols V_dense /\
     length (mat_mem M') = Z.to_nat (2 * n_cols V_dense)) /\
    ((computed_seed V_dense 2 = nan /\
      Forall (fun x => x = nan) (mat_mem M')) \/
     (computed_seed V_dense 2 <> nan /\
      Forall (fun x => in_closed_seed_range (computed_seed V_dense 2) x = true)
             (mat_mem M'))).
Proof.
  apply (InitializeOne_range V_dense 2 "h" M_stale P0).
  - intros []; split; reflexivity.
  - right; right; right; reflexivity.
Defined.

Lemma infinite_radicand_gives_infinity_witness :
  mat_ok V_huge /\
  computed_radicand V_huge 1 = infinity /\
  computed_seed V_huge 1 = infinity /\
  exists W' H' g',
    Initialize V_huge 1 M_empty M_stale P0 = Normal (W', H', g') /\
    Forall (fun x => x = infinity) (mat_mem W') /\
    Forall (fun x => x = infinity) (mat_mem H').
Proof.
  split; [unfold mat_ok, dims_ok, SIZE_MAX; cbn; lia|].
  assert (computed_radicand V_huge 1 = infinity) as Hinf by reflexivity.
  split; [exact Hinf|].
  apply (infinite_radicand_gives_infinity V_huge 1 M_empty M_stale P0);
    [intros []; split; reflexivity | exact Hinf].
Defined.
